(** * SharePoint 2016 connector: the crawl-and-index pipeline of [fetch_index.py]

    A shallow embedding of [src/fetch_index.py] (class [FetchIndex], the
    generator [datetime_partitioning] and the coordinator loop [start]) and of
    [Permissions.remove_all_permissions] from
    [src/ees_sharepoint/usergroup_permissions.py].

    Conventions.
    - Python scalars are values of [pyval]; dictionaries whose order is
      irrelevant are [gmap]s, the insertion-ordered [lists] dictionary of
      [get_lists_paths] is an association list.
    - The collaborators the module calls but does not define (the SharePoint
      client, the Workplace Search client, Tika, [urljoin], [re.sub], the
      adapter's schema table) are the fields of a [world] record: functions of
      the call's arguments.
    - A [FetchIndex] method is a computation over [fetch_state] (the
      instance's [is_error], the [ids] argument it mutates, and the log of the
      sink calls it made) that either returns or raises an uncaught exception.
    - A timestamp string in [DATETIME_FORMAT] is the number of whole seconds it
      denotes; a [datetime] is a number of microseconds. *)

From Stdlib Require Import ZArith Lia.
From stdpp Require Import gmap strings list fin_maps pretty.

Local Open Scope Z_scope.

(** ** Python scalars *)

Inductive pyval :=
| PNone
| PBool (b : bool)
| PInt (z : Z)
| PStr (s : string).

#[global] Instance pyval_eq_dec : EqDecision pyval.
Proof. solve_decision. Defined.

#[global] Instance pyval_countable : Countable pyval.
Proof.
  refine (inj_countable'
    (λ v, match v with
          | PNone => inl ()
          | PBool b => inr (inl b)
          | PInt z => inr (inr (inl z))
          | PStr s => inr (inr (inr s))
          end)
    (λ x, match x with
          | inl _ => PNone
          | inr (inl b) => PBool b
          | inr (inr (inl z)) => PInt z
          | inr (inr (inr s)) => PStr s
          end) _).
  by intros [].
Defined.

(** [bool(v)]: the truth value Python's [if v:] and [not v] use. *)
Definition truthy (v : pyval) : bool :=
  match v with
  | PNone => false
  | PBool b => b
  | PInt z => negb (z =? 0)
  | PStr s => negb (bool_decide (s = EmptyString))
  end.

(** [str(v)], as f-strings and [str()] apply it. *)
Definition py_str (v : pyval) : string :=
  match v with
  | PNone => "None"
  | PBool true => "True"
  | PBool false => "False"
  | PInt z => pretty z
  | PStr s => s
  end.

(** [a == b]: [bool] is a subclass of [int], a string equals only a string. *)
Definition py_num (v : pyval) : option Z :=
  match v with
  | PBool b => Some (if b then 1 else 0)
  | PInt z => Some z
  | _ => None
  end.

Definition py_eq (a b : pyval) : bool :=
  match a, b with
  | PNone, PNone => true
  | PStr s, PStr t => bool_decide (s = t)
  | _, _ =>
      match py_num a, py_num b with
      | Some x, Some y => x =? y
      | _, _ => false
      end
  end.

(** [x in l] for a list [l]. *)
Definition py_in (x : pyval) (l : list pyval) : bool := existsb (py_eq x) l.

(** The representative under which a value is stored as a dictionary key
    ([True] and [1], [False] and [0] are one key). *)
Definition pykey (v : pyval) : pyval :=
  match v with
  | PBool b => PInt (if b then 1 else 0)
  | _ => v
  end.

(** ** Module constants *)

Definition SITE : string := "site".
Definition LIST : string := "list".
Definition ITEM : string := "item".
Definition SITES : string := "sites".
Definition LISTS : string := "lists".
Definition ITEMS : string := "items".
Definition DOCUMENT_SIZE : nat := 100.

(** ** Time: [datetime_partitioning] *)

(** Whole seconds: what a string in [DATETIME_FORMAT] denotes. *)
Abbreviation timestamp := Z.
(** Microseconds: the resolution of [datetime] and [timedelta]. *)
Abbreviation datetime := Z.

Definition strptime (t : timestamp) : datetime := t * 1000000.
(** [%S] prints the seconds field and drops the microseconds. *)
Definition strftime (d : datetime) : timestamp := d `div` 1000000.

(** [timedelta / int] rounds the quotient of the microsecond counts to the
    nearest integer, ties to even ([_divide_and_round]). *)
Definition divide_and_round (a b : Z) : Z :=
  let q := a `div` b in
  let r := 2 * (a `mod` b) in
  let greater_than_half := if 0 <? b then b <? r else r <? b in
  if greater_than_half || ((r =? b) && (q `mod` 2 =? 1)) then q + 1 else q.

(** The generator, as the list [list(datetime_partitioning(...))] builds.
    [None]: the [ZeroDivisionError] of [processes = 0]. *)
Definition datetime_partitioning (start_time end_time : timestamp) (processes : Z)
  : option (list datetime) :=
  let start_dt := strptime start_time in
  let end_dt := strptime end_time in
  if processes =? 0 then None
  else
    let diff := divide_and_round (end_dt - start_dt) processes in
    Some (map (λ idx : nat, start_dt + diff * Z.of_nat idx) (seq 0 (Z.to_nat processes))
          ++ [end_dt]).

(** [datelist]: the boundaries formatted back to strings. *)
Definition datelist_of (partitions : list datetime) : list timestamp :=
  map strftime partitions.

(** The windows [(datelist[num], datelist[num + 1])] for [num] in
    [range(0, worker_process)]; [None] is the [IndexError] of a short list. *)
Fixpoint partition_windows (datelist : list timestamp) (num : nat) (count : nat)
  : option (list (timestamp * timestamp)) :=
  match count with
  | O => Some []
  | S count' =>
      match datelist !! num, datelist !! S num with
      | Some s, Some e =>
          match partition_windows datelist (S num) count' with
          | Some rest => Some ((s, e) :: rest)
          | None => None
          end
      | _, _ => None
      end
  end.

(** ** Source objects, documents and the collaborators *)

(** One object of a SharePoint result list: attribute name to value. *)
Abbreviation attrs := (gmap string pyval).

(** A value of a document field: a projected scalar, the list of group
    titles under [_allow_permissions], or the [{}] a failed extraction
    leaves in [body]. *)
Inductive docval :=
| DVal (v : pyval)
| DList (l : list string)
| DEmptyDict.

#[global] Instance docval_eq_dec : EqDecision docval.
Proof. solve_decision. Defined.

Abbreviation doc := (gmap string docval).

(** What [sharepoint_client.get] hands to [check_response]. *)
Inductive response (A : Type) :=
| Falsy                          (* [not response] holds *)
| BadJson                        (* [response.json()] raises [ValueError] *)
| Results (r : option (list A)). (* [response.json().get("d", {}).get("results")] *)
Arguments Falsy {A}.
Arguments BadJson {A}.
Arguments Results {A} r.

(** [role["Member"].get("Users")]: absent or empty (falsy), a dictionary
    with its ["results"], or a non-empty dictionary without that key. *)
Inductive users_field :=
| UsersAbsent
| UsersResults (titles : list string)
| UsersDeferred.

(** One role assignment: [role["Member"]["Title"]] and the member's users
    (each by its ['Title']). *)
Record role := { member_title : string; member_users : users_field }.

(** One entry of the attachment listing: the [ServerRelativeUrl] of each of
    its [AttachmentFiles.results]. *)
Record attachment_entry := { attachment_files : list pyval }.

(** The response of the attachment download. *)
Record file_response := { status_code : Z; content : string }.

(** [ws_client.index_documents]: raises, or answers per document whether
    its ['errors'] is non-empty (the count of accepted documents is only
    logged). *)
Inductive sink_result :=
| SinkRaises
| SinkResults (errors : list bool).

Record world := {
  urljoin : string → string → string;
  re_sub_title : string → string;              (* re.sub(r'[^ \w+]', '', s) *)
  encode : pyval → option string;              (* sharepoint_utils.encode; None: it raises *)
  get_query : timestamp → timestamp → string → string;
  sp_get : string → string → response attrs;
  sp_get_attachments : string → string → response attachment_entry;
  sp_get_file : string → string → option file_response;
  fetch_users : string → string → option pyval → option string → response role;
  tika_extract : string → option string;       (* None: TikaException *)
  ws_index_documents : list doc → sink_result;
  ws_add_user_permissions : string → string → bool;   (* false: it raises *)
  ws_list_permissions : option (option (list (string * list string)));
                                               (* None: it raises; Some None: a falsy answer;
                                                  otherwise the (user, permissions) results *)
  ws_remove_user_permissions : string → list string → bool;   (* false: it raises *)
  cpu_count : Z;                               (* os.cpu_count() *)
  DEFAULT_SCHEMA : string → gmap string string;       (* adapter.DEFAULT_SCHEMA *)
  mapping_rows : list (string * string);       (* rows of the user mapping sheet *)
}.

(** ** Configuration *)

(** The value of one entry of [objects]: a dictionary with the keys
    [include_fields] and [exclude_fields], each present with its list or
    absent. *)
Record fields_cfg := {
  include_fields : option (list string);
  exclude_fields : option (list string);
}.

(** The configuration values [fetch_index.py] reads from [data]. [objects]
    keeps the order of its keys, which [indexing] iterates over;
    [enable_document_permission] tells whether the configured value [is True];
    [start_time_cfg] is the configured [start_time]. *)
Record config := {
  sharepoint_host_url : string;
  objects : list (string * option fields_cfg);
  site_collections : list string;
  enable_document_permission : bool;
  worker_process : option Z;
  start_time_cfg : timestamp;
}.

(** [self.objects.get(name)] *)
Fixpoint objects_get (objs : list (string * option fields_cfg)) (name : string)
  : option fields_cfg :=
  match objs with
  | [] => None
  | (k, v) :: rest => if bool_decide (k = name) then v else objects_get rest name
  end.

(** [bool(fields)]: the dictionary is non-empty. *)
Definition fields_truthy (f : fields_cfg) : bool :=
  bool_decide (is_Some (include_fields f)) || bool_decide (is_Some (exclude_fields f)).

(** [bool(l)] for an optional list: neither [None] nor [[]]. *)
Definition list_truthy {A} (l : option (list A)) : bool :=
  match l with
  | Some (_ :: _) => true
  | _ => false
  end.

(** ** [check_response] *)

Definition check_response {A} (resp : response A) (param_name : string)
  : option (list A) :=
  match resp with
  | Falsy =>
      if bool_decide (param_name = "attachment") then None
      else if bool_decide (param_name = SITES) then None else Some []
  | BadJson => if bool_decide (param_name = SITES) then None else Some []
  | Results r => r
  end.

(** ** The state of a [FetchIndex] run *)

Record registry := {
  reg_sites : gmap pyval pyval;
  reg_lists : gmap pyval (gmap pyval pyval);
  reg_list_items : gmap pyval (gmap pyval (list pyval));
}.

Definition empty_registry : registry :=
  {| reg_sites := ∅; reg_lists := ∅; reg_list_items := ∅ |}.

Inductive sink_call :=
| IndexDocuments (chunk : list doc)
| AddUserPermissions (user permission : string).

#[global] Instance sink_call_eq_dec : EqDecision sink_call.
Proof. solve_decision. Defined.

Record fetch_state := {
  is_error : bool;
  ids : registry;
  calls : list sink_call;
}.

Inductive exn := KeyError | TypeError | IndexError | AttributeError.

Inductive outcome (A : Type) :=
| Returned (a : A) (s : fetch_state)
| Raised (e : exn) (s : fetch_state).
Arguments Returned {A} a s.
Arguments Raised {A} e s.

Definition M (A : Type) : Type := fetch_state → outcome A.

Definition ret {A} (a : A) : M A := λ s, Returned a s.
Definition bind {A B} (m : M A) (k : A → M B) : M B :=
  λ s, match m s with
       | Returned a s' => k a s'
       | Raised e s' => Raised e s'
       end.
Definition raise {A} (e : exn) : M A := λ s, Raised e s.

Notation "'let*' x := m 'in' k" := (bind m (λ x, k))
  (at level 10, x pattern, m at level 100, k at level 200).
Notation "m1 ;;; m2" := (bind m1 (λ _, m2))
  (at level 100, m2 at level 200, right associativity).

Definition get_is_error : M bool := λ s, Returned (is_error s) s.
Definition set_is_error (b : bool) : M unit :=
  λ s, Returned tt {| is_error := b; ids := ids s; calls := calls s |}.
Definition modify_ids (f : registry → registry) : M unit :=
  λ s, Returned tt {| is_error := is_error s; ids := f (ids s); calls := calls s |}.
Definition call_sink (c : sink_call) : M unit :=
  λ s, Returned tt {| is_error := is_error s; ids := ids s; calls := calls s ++ [c] |}.

(** [o[k]]: [KeyError] when the key is missing. *)
Definition subscript (o : attrs) (k : string) : M pyval :=
  match o !! k with
  | Some v => ret v
  | None => raise KeyError
  end.

(** [o.get(k, None)] *)
Definition attr_get (o : attrs) (k : string) : pyval := default PNone (o !! k).

(** An operation that accepts a [str] only. *)
Definition need_str (v : pyval) : M string :=
  match v with
  | PStr s => ret s
  | _ => raise TypeError
  end.

(** ** [FetchIndex] *)

(** The attributes of an instance the methods read. *)
Record fetch_index := {
  data : config;
  start_time : timestamp;
  end_time : timestamp;
}.

(** [urljoin(self.sharepoint_host, url)] for a [url] taken from a response:
    a falsy [url] returns the base, a [str] is joined, anything else is
    refused by the argument coercion. *)
Definition urljoin_host (w : world) (self : fetch_index) (url : pyval) : M string :=
  match url with
  | PStr s => ret (urljoin w (sharepoint_host_url (data self)) s)
  | v => if truthy v then raise TypeError else ret (sharepoint_host_url (data self))
  end.

(** [document_list]: the slices [document[i * DOCUMENT_SIZE:(i + 1) * DOCUMENT_SIZE]]. *)
Definition document_list (document : list doc) : list (list doc) :=
  map (λ i : nat, take DOCUMENT_SIZE (drop (i * DOCUMENT_SIZE) document))
      (seq 0 ((length document + DOCUMENT_SIZE - 1) `div` DOCUMENT_SIZE)%nat).

(** The [for chunk in document_list] loop inside the [try]: the first call
    that raises ends the loop in the [except] branch. *)
Fixpoint index_chunks (w : world) (chunks : list (list doc)) : M unit :=
  match chunks with
  | [] => ret tt
  | chunk :: rest =>
      call_sink (IndexDocuments chunk) ;;;
      match ws_index_documents w chunk with
      | SinkRaises => set_is_error true
      | SinkResults _ => index_chunks w rest
      end
  end.

(** [index_document]. With an empty [document] the logging line reads
    [total_documents_indexed] before any assignment; the [UnboundLocalError]
    is caught by the same [except Exception]. *)
Definition index_document (w : world) (document : list doc) : M unit :=
  match document with
  | [] => set_is_error true
  | _ :: _ => index_chunks w (document_list document)
  end.

(** [get_schema_fields] *)
Definition get_schema_fields (w : world) (self : fetch_index) (document_name : string)
  : gmap string string :=
  let adapter_schema := DEFAULT_SCHEMA w document_name in
  match objects_get (objects (data self)) document_name with
  | Some fields =>
      if fields_truthy fields then
        let adapter_schema :=
          if list_truthy (include_fields fields) then
            filter (λ kv, kv.2 ∈ default [] (include_fields fields)) adapter_schema
          else if list_truthy (exclude_fields fields) then
            filter (λ kv, kv.2 ∉ default [] (exclude_fields fields)) adapter_schema
          else adapter_schema in
        <["id" := if bool_decide (document_name = ITEMS) then "GUID" else "Id"]>
          adapter_schema
      else adapter_schema
  | None => adapter_schema
  end.

(** The loop [for field, response_field in schema.items(): doc[field] = o.get(response_field, None)]. *)
Definition project (schema : gmap string string) (o : attrs) (d : doc) : doc :=
  ((λ response_field, DVal (attr_get o response_field)) <$> schema) ∪ d.

(** [workplace_add_permission] *)
Definition workplace_add_permission (w : world) (user_name permission : string) : M unit :=
  call_sink (AddUserPermissions user_name permission) ;;;
  if ws_add_user_permissions w user_name permission then ret tt
  else set_is_error true.

(** [rows]: the mapping sheet read row by row, a later row replacing an
    earlier one with the same first column. *)
Definition rows_of (sheet : list (string * string)) : gmap string string :=
  foldl (λ rows row, <[row.1 := row.2]> rows) ∅ sheet.

(** [rows.get(name, name)] *)
Definition rows_get (rows : gmap string string) (name : string) : string :=
  default name (rows !! name).

(** [get_roles]: [key] is one of the three module constants at every call. *)
Definition get_roles (w : world) (self : fetch_index) (key : string)
    (site list_url list_name : pyval) (itemid : option string)
  : M (response role * string) :=
  if bool_decide (key = SITES) then
    let* rel_url := urljoin_host w self site in
    ret (fetch_users w key rel_url None None, rel_url)
  else if bool_decide (key = LISTS) then
    let* rel_url := urljoin_host w self list_url in
    ret (fetch_users w key rel_url (Some list_name) None, rel_url)
  else if bool_decide (key = ITEMS) then
    let* rel_url := urljoin_host w self list_url in
    ret (fetch_users w key rel_url (Some list_name) itemid, rel_url)
  else raise TypeError.

(** The inner loop [for user in users]. *)
Fixpoint add_member_users (w : world) (rows : gmap string string) (title : string)
    (users : list string) : M unit :=
  match users with
  | [] => ret tt
  | user :: rest =>
      workplace_add_permission w (rows_get rows user) title ;;;
      add_member_users w rows title rest
  end.

(** The loop [for role in roles] of [index_permissions]. *)
Fixpoint expand_roles (w : world) (rows : gmap string string) (roles : list role)
    (groups : list string) : M (list string) :=
  match roles with
  | [] => ret groups
  | r :: rest =>
      let title := member_title r in
      let groups := groups ++ [title] in
      match member_users r with
      | UsersResults users =>
          add_member_users w rows title users ;;;
          expand_roles w rows rest groups
      | UsersDeferred => raise TypeError
      | UsersAbsent =>
          let user_name := rows_get rows title in
          workplace_add_permission w user_name user_name ;;;
          expand_roles w rows rest groups
      end
  end.

(** [index_permissions] *)
Definition index_permissions (w : world) (self : fetch_index) (key : string)
    (site list_name list_url : pyval) (itemid : option string) : M (list string) :=
  let* (roles, rel_url) := get_roles w self key site list_url list_name itemid in
  match check_response roles "roles" with
  | None => raise TypeError
  | Some roles => expand_roles w (rows_of (mapping_rows w)) roles []
  end.

(** [doc["id"]] used as a dictionary key: [KeyError] when the schema
    projected no [id], [TypeError] for an unhashable value. *)
Definition doc_id (d : doc) : M pyval :=
  match d !! "id" with
  | Some (DVal v) => ret v
  | Some _ => raise TypeError
  | None => raise KeyError
  end.

(** The body of the loop of [index_sites]: the object with its [Created]
    suffixed in place, and the document built from it. *)
Definition site_document (w : world) (self : fetch_index) (schema : gmap string string)
    (o : attrs) : M (attrs * doc) :=
  let* created := subscript o "Created" in
  let* created := need_str created in
  let o := <["Created" := PStr (created +:+ "Z")]> o in
  let d := project schema o {["type" := DVal (PStr SITE)]} in
  let* d :=
    (if enable_document_permission (data self) then
       let* site := subscript o "ServerRelativeUrl" in
       let* groups := index_permissions w self SITES site PNone PNone None in
       ret (<["_allow_permissions" := DList groups]> d)
     else ret d) in
  let* id := doc_id d in
  let* url := subscript o "ServerRelativeUrl" in
  modify_ids (λ r, {| reg_sites := <[pykey id := url]> (reg_sites r);
                      reg_lists := reg_lists r;
                      reg_list_items := reg_list_items r |}) ;;;
  ret (o, d).

Fixpoint index_sites_docs (w : world) (self : fetch_index) (schema : gmap string string)
    (response_data : list attrs) : M (list attrs * list doc) :=
  match response_data with
  | [] => ret ([], [])
  | o :: rest =>
      let* (o', d) := site_document w self schema o in
      let* (os, ds) := index_sites_docs w self schema rest in
      ret (o' :: os, d :: ds)
  end.

(** [index_sites] *)
Definition index_sites (w : world) (self : fetch_index) (collection : string)
    (index : bool) : M (list attrs) :=
  let rel_url := urljoin w (sharepoint_host_url (data self))
                   ("/sites/" +:+ collection +:+ "/_api/web/webs") in
  let query := get_query w (start_time self) (end_time self) SITES in
  match check_response (sp_get w rel_url query) SITES with
  | Some (o :: os) =>
      let schema := get_schema_fields w self SITES in
      if index then
        let* (response_data, document) := index_sites_docs w self schema (o :: os) in
        index_document w document ;;;
        ret response_data
      else ret (o :: os)
  | _ => ret []
  end.

(** [get_site_paths]; [response_data=None] is the empty list. *)
Definition get_site_paths (w : world) (self : fetch_index) (collection : string)
    (response_data : list attrs) : M (list pyval) :=
  let* response_data :=
    (match response_data with
     | [] => index_sites w self collection false
     | _ :: _ => ret response_data
     end) in
  ret (map (λ result, attr_get result "ServerRelativeUrl") response_data).

(** The body of the inner loop of [index_lists]. *)
Definition list_document (w : world) (self : fetch_index) (site : pyval)
    (base_list_url : string) (schema_list : gmap string string) (o : attrs) : M doc :=
  let d := project schema_list o {["type" := DVal (PStr LIST)]} in
  let* d :=
    (if enable_document_permission (data self) then
       let* title := subscript o "Title" in
       let* parent := subscript o "ParentWebUrl" in
       let* groups := index_permissions w self LISTS site title parent None in
       ret (<["_allow_permissions" := DList groups]> d)
     else ret d) in
  let* title := subscript o "Title" in
  let* name := need_str title in
  let d := <["url" := DVal (PStr (urljoin w base_list_url (re_sub_title w name)))]> d in
  let* id := doc_id d in
  modify_ids (λ r, {| reg_sites := reg_sites r;
                      reg_lists := alter (insert (pykey id) title) (pykey site) (reg_lists r);
                      reg_list_items := reg_list_items r |}) ;;;
  ret d.

(** [for num in range(len(response_data))], appending to [document]. *)
Fixpoint index_lists_docs (w : world) (self : fetch_index) (site : pyval)
    (base_list_url : string) (schema_list : gmap string string)
    (response_data : list attrs) (document : list doc) : M (list doc) :=
  match response_data with
  | [] => ret document
  | o :: rest =>
      let* d := list_document w self site base_list_url schema_list o in
      index_lists_docs w self site base_list_url schema_list rest (document ++ [d])
  end.

(** The loop [for site in sites] of [index_lists]; [responses] and
    [document] are the two lists created before the loop. *)
Fixpoint index_lists_loop (w : world) (self : fetch_index) (index : bool)
    (sites : list pyval) (responses : list (list attrs)) (document : list doc)
  : M (list (list attrs)) :=
  match sites with
  | [] => ret responses
  | site :: rest =>
      let host := sharepoint_host_url (data self) in
      let rel_url := urljoin w host (py_str site +:+ "/_api/web/lists") in
      let query := get_query w (start_time self) (end_time self) LISTS in
      match check_response (sp_get w rel_url query) LISTS with
      | Some (o :: os) =>
          let response_data := o :: os in
          let base_list_url := urljoin w host (py_str site +:+ "/Lists/") in
          let schema_list := get_schema_fields w self LISTS in
          if index then
            modify_ids (λ r, {| reg_sites := reg_sites r;
                                reg_lists := <[pykey site := ∅]> (reg_lists r);
                                reg_list_items := reg_list_items r |}) ;;;
            let* document :=
              index_lists_docs w self site base_list_url schema_list response_data document in
            index_document w document ;;;
            index_lists_loop w self index rest (responses ++ [response_data]) document
          else index_lists_loop w self index rest (responses ++ [response_data]) document
      | _ => index_lists_loop w self index rest responses document
      end
  end.

(** [index_lists] *)
Definition index_lists (w : world) (self : fetch_index) (sites : list pyval)
    (index : bool) : M (list (list attrs)) :=
  match sites with
  | [] => ret []
  | _ :: _ => index_lists_loop w self index sites [] []
  end.

(** The [lists] dictionary: list id to [[ParentWebUrl, Title]], in insertion
    order. *)
Definition lists_dict := list (pyval * (pyval * pyval)).

(** [lists[k] = v] *)
Fixpoint dict_set (k : pyval) (v : pyval * pyval) (d : lists_dict) : lists_dict :=
  match d with
  | [] => [(k, v)]
  | (k', v') :: rest =>
      if py_eq k' k then (k', v) :: rest else (k', v') :: dict_set k v rest
  end.

(** [get_lists_paths]; [response_data=None] is the empty list. *)
Definition get_lists_paths (w : world) (self : fetch_index) (collection : string)
    (sites : list pyval) (response_data : list (list attrs)) : M lists_dict :=
  let* sites :=
    (match sites with
     | [] => get_site_paths w self collection []
     | _ :: _ => ret sites
     end) in
  let* response_data :=
    (match response_data with
     | [] => index_lists w self sites false
     | _ :: _ => ret response_data
     end) in
  ret (foldl (λ lists result,
                dict_set (attr_get result "Id")
                         (attr_get result "ParentWebUrl", attr_get result "Title") lists)
             [] (concat response_data)).

(** [requests.codes.ok] *)
Definition codes_ok : Z := 200.

(** The attachment branch of the loop of [index_items]: the document after
    the [if response_data[num].get('Attachments'):] block. *)
Definition item_body (w : world) (self : fetch_index) (value0 : pyval)
    (file_response_data : option (list attachment_entry)) (num : nat)
    (o : attrs) (d : doc) : M doc :=
  if truthy (attr_get o "Attachments") then
    match file_response_data with
    | None => raise TypeError
    | Some entries =>
        match entries !! num with
        | None => raise IndexError
        | Some entry =>
            match attachment_files entry with
            | [] => raise IndexError
            | file_relative_url :: _ =>
                let url_s := py_str value0 +:+ "/_api/web/GetFileByServerRelativeUrl('"
                             +:+ py_str file_relative_url +:+ "')/$value" in
                match sp_get_file w (urljoin w (sharepoint_host_url (data self)) url_s) "?" with
                | None => raise AttributeError
                | Some resp =>
                    if status_code resp =? codes_ok then
                      match tika_extract w (content resp) with
                      | Some text => ret (<["body" := DVal (PStr text)]> d)
                      | None => ret (<["body" := DEmptyDict]> d)
                      end
                    else ret d
                end
            end
        end
    end
  else ret d.

(** The rest of the loop body: projection, permissions, url, and the
    [GUID] recorded in [ids]. The document returned is the one appended to
    [document]. *)
Definition item_finish (w : world) (self : fetch_index) (value0 value1 : pyval)
    (base_item_url : string) (schema_item : gmap string string)
    (o : attrs) (d : doc) : M doc :=
  let d := project schema_item o d in
  let* d :=
    (if enable_document_permission (data self) then
       let* id := subscript o "Id" in
       let* groups := index_permissions w self ITEMS PNone value1 value0 (Some (py_str id)) in
       ret (<["_allow_permissions" := DList groups]> d)
     else ret d) in
  let* id := subscript o "Id" in
  let d := <["url" := DVal (PStr (base_item_url +:+ py_str id))]> d in
  modify_ids (λ r, {| reg_sites := reg_sites r;
                      reg_lists := reg_lists r;
                      reg_list_items :=
                        alter (alter (λ guids, guids ++ [attr_get o "GUID"]) (pykey value1))
                              (pykey value0) (reg_list_items r) |}) ;;;
  ret d.

Definition item_document (w : world) (self : fetch_index) (value0 value1 : pyval)
    (base_item_url : string) (schema_item : gmap string string)
    (file_response_data : option (list attachment_entry)) (num : nat) (o : attrs) : M doc :=
  let* d := item_body w self value0 file_response_data num o {["type" := DVal (PStr ITEM)]} in
  item_finish w self value0 value1 base_item_url schema_item o d.

(** [for num in range(len(response_data))]: [num] counts the objects
    already processed, [document] holds their documents. *)
Fixpoint index_items_docs (w : world) (self : fetch_index) (value0 value1 : pyval)
    (base_item_url : string) (schema_item : gmap string string)
    (file_response_data : option (list attachment_entry))
    (response_data : list attrs) (num : nat) (document : list doc) : M (list doc) :=
  match response_data with
  | [] => ret document
  | o :: rest =>
      let* d := item_document w self value0 value1 base_item_url schema_item
                  file_response_data num o in
      index_items_docs w self value0 value1 base_item_url schema_item
        file_response_data rest (S num) (document ++ [d])
  end.

(** [encode(value[1])] inside an f-string. *)
Definition encode_title (w : world) (title : pyval) : M string :=
  match encode w title with
  | Some s => ret s
  | None => raise TypeError
  end.

(** What [index_items] does for one entry of [lists] once its items were
    fetched: [None] stands for the [continue] of an empty answer. *)
Definition index_items_list (w : world) (self : fetch_index) (index : bool)
    (value0 value1 : pyval) : M (option (list doc)) :=
  let host := sharepoint_host_url (data self) in
  let* encoded := encode_title w value1 in
  let rel_url := urljoin w host (py_str value0 +:+ "/_api/web/lists/getbytitle('"
                                 +:+ encoded +:+ "')/items") in
  let query := get_query w (start_time self) (end_time self) ITEMS in
  match check_response (sp_get w rel_url query) ITEMS with
  | Some (o :: os) =>
      let response_data := o :: os in
      let* title := need_str value1 in
      let list_name := re_sub_title w title in
      let base_item_url := urljoin w host (py_str value0 +:+ "/Lists/" +:+ list_name
                                           +:+ "/DispForm.aspx?ID=") in
      let schema_item := get_schema_fields w self ITEMS in
      if index then
        modify_ids (λ r, {| reg_sites := reg_sites r;
                            reg_lists := reg_lists r;
                            reg_list_items :=
                              alter (insert (pykey value1) []) (pykey value0)
                                    (reg_list_items r) |}) ;;;
        let* encoded := encode_title w value1 in
        let rel_url :=
          urljoin w host (py_str value0 +:+ "/_api/web/lists/getbytitle('" +:+ encoded
            +:+ "')/items?$select=Attachments,AttachmentFiles,Title&$expand=AttachmentFiles") in
        let file_response_data :=
          check_response (sp_get_attachments w rel_url "?") "attachment" in
        let* document :=
          index_items_docs w self value0 value1 base_item_url schema_item
            file_response_data response_data 0 [] in
        index_document w document ;;;
        ret (Some document)
      else ret (Some [])
  | _ => ret None
  end.

(** The loop [for list_content, value in lists.items()]. *)
Fixpoint index_items_loop (w : world) (self : fetch_index) (index : bool)
    (lists : lists_dict) (responses : list (list doc)) : M (list (list doc)) :=
  match lists with
  | [] => ret responses
  | (_, (value0, value1)) :: rest =>
      let* document := index_items_list w self index value0 value1 in
      match document with
      | Some document => index_items_loop w self index rest (responses ++ [document])
      | None => index_items_loop w self index rest responses
      end
  end.

(** [index_items] *)
Definition index_items (w : world) (self : fetch_index) (lists : lists_dict)
    (index : bool) : M (list (list doc)) :=
  match lists with
  | [] => ret []
  | _ :: _ =>
      modify_ids (λ r, {| reg_sites := reg_sites r;
                          reg_lists := reg_lists r;
                          reg_list_items :=
                            foldl (λ items value, <[pykey value.2.1 := ∅]> items)
                                  (reg_list_items r) lists |}) ;;;
      index_items_loop w self index lists []
  end.

(** *** [indexing] *)

(** The second half of the loop body: the [ITEMS] branch and its [elif]. *)
Definition indexing_items (w : world) (self : fetch_index) (collection key : string)
    (sites : list pyval) (lists : lists_dict) : M (list pyval * lists_dict) :=
  let* err := get_is_error in
  if bool_decide (key = ITEMS) && negb err then
    let* lists :=
      (match lists with
       | [] => get_lists_paths w self collection sites []
       | _ :: _ => ret lists
       end) in
    index_items w self lists true ;;;
    ret (sites, lists)
  else if err then set_is_error false ;;; ret (sites, lists)
  else ret (sites, lists).

(** One iteration of [for key in self.objects], on the locals [sites] and
    [lists]. *)
Definition indexing_key (w : world) (self : fetch_index) (collection key : string)
    (sites : list pyval) (lists : lists_dict) : M (list pyval * lists_dict) :=
  let* sites :=
    (if bool_decide (key = SITES) then
       let* resp := index_sites w self collection true in
       get_site_paths w self collection resp
     else ret sites) in
  let* err := get_is_error in
  if bool_decide (key = LISTS) && negb err then
    let* sites :=
      (match sites with
       | [] => get_site_paths w self collection []
       | _ :: _ => ret sites
       end) in
    let* responses := index_lists w self sites true in
    let* lists := get_lists_paths w self collection sites responses in
    indexing_items w self collection key sites lists
  else if err then set_is_error false ;;; ret (sites, lists)
  else indexing_items w self collection key sites lists.

Fixpoint indexing_loop (w : world) (self : fetch_index) (collection : string)
    (keys : list string) (sites : list pyval) (lists : lists_dict) : M unit :=
  match keys with
  | [] => ret tt
  | key :: rest =>
      let* (sites, lists) := indexing_key w self collection key sites lists in
      indexing_loop w self collection rest sites lists
  end.

(** [prev_ids = storage[obj]; prev_ids.update(ids[obj]); storage[obj] = prev_ids],
    guarded by [if ids.get(obj)]. *)
Definition merge_level {V} (delta prev : gmap pyval V) : gmap pyval V :=
  if bool_decide (delta = ∅) then prev else delta ∪ prev.

Definition merge_ids (ids : registry) (storage : registry) : registry :=
  {| reg_sites := merge_level (reg_sites ids) (reg_sites storage);
     reg_lists := merge_level (reg_lists ids) (reg_lists storage);
     reg_list_items := merge_level (reg_list_items ids) (reg_list_items storage) |}.

(** The objects the worker processes of one collection share. *)
Record shared := {
  storage : registry;
  is_error_shared : list bool;
}.

(** [indexing], run in a process of its own on a fresh [FetchIndex] (so
    [is_error] starts [False]) and on its copy of [ids]: the sink calls it
    made and the shared objects after it. An exception that escapes ends the
    process before the flag is appended and the identifiers are merged. *)
Definition indexing (w : world) (self : fetch_index) (collection : string)
    (ids0 : registry) (sh : shared) : list sink_call * shared :=
  match indexing_loop w self collection (map fst (objects (data self))) [] []
          {| is_error := false; ids := ids0; calls := [] |} with
  | Returned _ s =>
      (calls s, {| storage := merge_ids (ids s) (storage sh);
                   is_error_shared := is_error_shared sh ++ [is_error s] |})
  | Raised _ s => (calls s, sh)
  end.

(** ** The coordinator: [start] *)

(** What one pass of the [while True] loop does outside the process, in
    order; the sink calls of a worker are tagged with its collection and
    number. Workers run one after the other in the order they are started:
    one of the schedules of the concurrent processes. *)
Inductive sync_event :=
| ListPermissions
| RemoveUserPermissions (user : string) (permissions : list string)
| StartProcess (collection : string) (num : nat) (window : timestamp * timestamp)
| WorkerCall (collection : string) (num : nat) (c : sink_call)
| SetCheckpoint (collection : string) (time : timestamp) (indexing_type : string).

(** The loop [for permission in permission_list] inside the [try]. *)
Fixpoint remove_permissions (w : world) (permission_list : list (string * list string))
  : list sync_event :=
  match permission_list with
  | [] => []
  | (user, permissions) :: rest =>
      RemoveUserPermissions user permissions ::
      (if ws_remove_user_permissions w user permissions
       then remove_permissions w rest else [])
  end.

(** [Permissions.remove_all_permissions]: every exception is caught and
    logged, so the call always returns. *)
Definition remove_all_permissions (w : world) : list sync_event :=
  ListPermissions ::
  match ws_list_permissions w with
  | Some (Some permission_list) => remove_permissions w permission_list
  | _ => []
  end.

(** Modelled from the spec: the class [Checkpoint] of module
    [checkpointing], which is not among the sources. Per collection the store
    holds the last boundary and the sync mode; [get_checkpoint] answers
    (last persisted boundary, now) and falls back to the configured start
    when the collection has no record; [set_checkpoint] persists the time it
    is given. *)
Definition get_checkpoint (cfg : config) (store : gmap string (timestamp * string))
    (collection : string) (current_time : timestamp) : timestamp * timestamp :=
  match store !! collection with
  | Some (boundary, _) => (boundary, current_time)
  | None => (start_time_cfg cfg, current_time)
  end.

Definition set_checkpoint (store : gmap string (timestamp * string))
    (collection : string) (time : timestamp) (indexing_type : string)
  : gmap string (timestamp * string) :=
  <[collection := (time, indexing_type)]> store.

(** The content of the file at [IDS_PATH]. *)
Record ids_store := {
  global_keys : gmap string registry;
  delete_keys : gmap string registry;
}.

(** What outlives a pass of the loop: the two files and the list
    [is_error_shared], created once before the loop. [ids_file] is [None] for
    a missing or empty file, [Some None] for one that does not parse. *)
Record sync_state := {
  ids_file : option (option ids_store);
  checkpoints : gmap string (timestamp * string);
  errors_shared : list bool;
}.

(** [worker_process], after the default. *)
Definition worker_count (w : world) (cfg : config) : Z :=
  match worker_process cfg with
  | None => cpu_count w
  | Some n => if n <=? 0 then cpu_count w else n
  end.

(** The interval of a collection. *)
Definition sync_window (cfg : config) (indexing_type : string)
    (store : gmap string (timestamp * string)) (collection : string)
    (current_time : timestamp) : timestamp * timestamp :=
  if bool_decide (indexing_type = "incremental") then
    get_checkpoint cfg store collection current_time
  else (start_time_cfg cfg, current_time).

(** The jobs of a collection, started and joined. *)
Fixpoint run_jobs (w : world) (cfg : config) (collection : string) (ids0 : registry)
    (num : nat) (windows : list (timestamp * timestamp)) (sh : shared)
  : list sync_event * shared :=
  match windows with
  | [] => ([], sh)
  | (s, e) :: rest =>
      let '(made, sh) :=
        indexing w {| data := cfg; start_time := s; end_time := e |} collection ids0 sh in
      let '(events, sh) := run_jobs w cfg collection ids0 (S num) rest sh in
      (map (WorkerCall collection num) made ++ events, sh)
  end.

(** [if "True" in is_error_shared: ... start_time ... else: ... end_time]:
    the time handed to [set_checkpoint]. The list holds the [bool]s the
    workers appended. *)
Definition checkpoint_time (is_error_shared : list bool)
    (start_time end_time : timestamp) : timestamp :=
  if py_in (PStr "True") (map PBool is_error_shared) then start_time else end_time.

(** The state the collections of one pass thread through. *)
Record pass_state := {
  p_checkpoints : gmap string (timestamp * string);
  p_errors_shared : list bool;
  p_global_keys : gmap string registry;   (* storage_with_collection["global_keys"] *)
  p_events : list sync_event;
}.

(** The body of [for collection in data.get("sharepoint.site_collections")].
    [None]: an exception escapes the coordinator. *)
Definition sync_collection (w : world) (cfg : config) (indexing_type : string)
    (current_time : timestamp) (loaded : gmap string registry)
    (collection : string) (p : pass_state) : option pass_state :=
  let worker_process := worker_count w cfg in
  let '(start_time, end_time) :=
    sync_window cfg indexing_type (p_checkpoints p) collection current_time in
  match datetime_partitioning start_time end_time worker_process with
  | None => None
  | Some partitions =>
      let datelist := datelist_of partitions in
      let ids0 := default empty_registry (loaded !! collection) in
      match partition_windows datelist 0 (Z.to_nat worker_process) with
      | None => None
      | Some windows =>
          let started := imap (λ num window, StartProcess collection num window) windows in
          let '(events, sh) :=
            run_jobs w cfg collection ids0 0 windows
              {| storage := empty_registry; is_error_shared := p_errors_shared p |} in
          let time := checkpoint_time (is_error_shared sh) start_time end_time in
          Some {| p_checkpoints := set_checkpoint (p_checkpoints p) collection time indexing_type;
                  p_errors_shared := is_error_shared sh;
                  p_global_keys := <[collection := storage sh]> (p_global_keys p);
                  p_events := p_events p ++ started ++ events
                              ++ [SetCheckpoint collection time indexing_type] |}
      end
  end.

Fixpoint sync_collections (w : world) (cfg : config) (indexing_type : string)
    (current_time : timestamp) (loaded : gmap string registry)
    (collections : list string) (p : pass_state) : option pass_state :=
  match collections with
  | [] => Some p
  | collection :: rest =>
      match sync_collection w cfg indexing_type current_time loaded collection p with
      | Some p => sync_collections w cfg indexing_type current_time loaded rest p
      | None => None
      end
  end.

(** One pass of the [while True] loop of [start], up to the [sleep]. *)
Definition sync_pass (w : world) (cfg : config) (indexing_type : string)
    (current_time : timestamp) (st : sync_state) : option (sync_state * list sync_event) :=
  let loaded :=
    match ids_file st with
    | Some (Some store) => global_keys store
    | _ => ∅
    end in
  let purge :=
    match ids_file st with
    | Some _ =>
        if bool_decide (indexing_type = "full_sync") then remove_all_permissions w else []
    | None => []
    end in
  match sync_collections w cfg indexing_type current_time loaded (site_collections cfg)
          {| p_checkpoints := checkpoints st; p_errors_shared := errors_shared st;
             p_global_keys := ∅; p_events := purge |} with
  | None => None
  | Some p =>
      Some ({| ids_file := Some (Some {| global_keys := p_global_keys p;
                                         delete_keys := loaded |});
               checkpoints := p_checkpoints p;
               errors_shared := p_errors_shared p |},
            p_events p)
  end.


(** ** Measures and predicates the statements use *)

(** A list of times that never goes back. *)
Definition non_decreasing (l : list Z) : Prop :=
  ∀ (i j : nat) (x y : Z), (i ≤ j)%nat → l !! i = Some x → l !! j = Some y → x ≤ y.

(** The number of entries of a registry, level by level. *)
Definition registry_size (r : registry) : nat :=
  (size (reg_sites r) + size (reg_lists r) + size (reg_list_items r))%nat.

(** Two registries share no key at any level. *)
Definition registry_disjoint (a b : registry) : Prop :=
  reg_sites a ##ₘ reg_sites b
  ∧ reg_lists a ##ₘ reg_lists b
  ∧ reg_list_items a ##ₘ reg_list_items b.

(** The grants one role assignment stands for, in the words of the
    specification: one per member user under the role's title when the
    member's users are enumerated, otherwise the principal itself; every name
    goes through the substitution table first. *)
Definition grants_of_role (rows : gmap string string) (r : role) : list sink_call :=
  match member_users r with
  | UsersResults users =>
      map (λ user, AddUserPermissions (rows_get rows user) (member_title r)) users
  | _ =>
      [AddUserPermissions (rows_get rows (member_title r)) (rows_get rows (member_title r))]
  end.

(** The events of the permission purge. *)
Definition is_purge (e : sync_event) : bool :=
  match e with
  | ListPermissions | RemoveUserPermissions _ _ => true
  | _ => false
  end.

Definition is_list_permissions (e : sync_event) : bool :=
  match e with
  | ListPermissions => true
  | _ => false
  end.

Definition is_start_process (e : sync_event) : bool :=
  match e with
  | StartProcess _ _ _ => true
  | _ => false
  end.

(** The documents a log of sink calls submitted, batch by batch. *)
Definition submitted (made : list sink_call) : list (list doc) :=
  omap (λ c, match c with IndexDocuments chunk => Some chunk | _ => None end) made.

(** The source answers nothing usable to any query. *)
Definition source_silent (w : world) : Prop :=
  ∀ url query name, list_truthy (check_response (sp_get w url query) name) = false.

(** ** A small farm to run the code on

    One collection [c1] with one site, one list [Docs] and one item that
    carries an attachment. The sink, the attachment download and the
    extractor are left open. *)

Definition demo_site : attrs :=
  {[ "Id" := PStr "s1"; "Title" := PStr "Home"; "Created" := PStr "2021-09-29T08:13:00";
     "ServerRelativeUrl" := PStr "/sites/c1/s" ]}.

Definition demo_list : attrs :=
  {[ "Id" := PStr "l1"; "Title" := PStr "Docs"; "Created" := PStr "2021-09-29T08:14:00";
     "ParentWebUrl" := PStr "/sites/c1/s" ]}.

Definition demo_item : attrs :=
  {[ "Id" := PInt 1; "GUID" := PStr "g1"; "Title" := PStr "Report";
     "Attachments" := PBool true ]}.

Definition demo_get (url query : string) : response attrs :=
  if bool_decide (url = "http://sp/sites/c1/_api/web/webs") then Results (Some [demo_site])
  else if bool_decide (url = "http://sp/sites/c1/s/_api/web/lists") then
    Results (Some [demo_list])
  else if bool_decide (url = "http://sp/sites/c1/s/_api/web/lists/getbytitle('Docs')/items")
  then Results (Some [demo_item])
  else Falsy.

Definition demo_schema (document_name : string) : gmap string string :=
  if bool_decide (document_name = ITEMS) then {[ "id" := "GUID"; "title" := "Title" ]}
  else {[ "id" := "Id"; "title" := "Title"; "created_at" := "Created" ]}.

Definition farm_world (get : string → string → response attrs)
    (sink : list doc → sink_result) (file : option file_response)
    (tika : string → option string) : world :=
  {| urljoin := λ base url, base +:+ url;
     re_sub_title := λ s, s;
     encode := λ v, Some (py_str v);
     get_query := λ _ _ _, EmptyString;
     sp_get := get;
     sp_get_attachments := λ _ _,
       Results (Some [{| attachment_files := [PStr "/sites/c1/s/Lists/Docs/Attachments/1/a.txt"] |}]);
     sp_get_file := λ _ _, file;
     fetch_users := λ _ _ _ _, Results (Some []);
     tika_extract := tika;
     ws_index_documents := sink;
     ws_add_user_permissions := λ _ _, true;
     ws_list_permissions := Some (Some [("alice", ["Home Members"])]);
     ws_remove_user_permissions := λ _ _, true;
     cpu_count := 4;
     DEFAULT_SCHEMA := demo_schema;
     mapping_rows := [] |}.

Definition demo_world := farm_world demo_get.

(** A sink that accepts every batch. *)
Definition sink_accepts (chunk : list doc) : sink_result :=
  SinkResults (map (λ _, false) chunk).

(** A sink that raises on every batch. *)
Definition sink_down (chunk : list doc) : sink_result := SinkRaises.

(** A sink that raises on a batch holding a document of the given type and
    accepts every other batch. *)
Definition sink_refusing (type : string) (chunk : list doc) : sink_result :=
  if existsb (λ d : doc, bool_decide (d !! "type" = Some (DVal (PStr type)))) chunk
  then SinkRaises else sink_accepts chunk.

Definition demo_config (objs : list (string * option fields_cfg)) (workers : option Z)
  : config :=
  {| sharepoint_host_url := "http://sp";
     objects := objs;
     site_collections := ["c1"];
     enable_document_permission := false;
     worker_process := workers;
     start_time_cfg := 0 |}.

Definition all_objects : list (string * option fields_cfg) :=
  [(SITES, None); (LISTS, None); (ITEMS, None)].

Definition fresh_state : sync_state :=
  {| ids_file := None; checkpoints := ∅; errors_shared := [] |}.

Definition not_found : file_response := {| status_code := 404; content := EmptyString |}.

(** Sample registries, a configuration with an include-list, and sample
    role assignments. *)
Definition delta_one : registry :=
  {| reg_sites := {[ PStr "s1" := PStr "/sites/c1/s" ]};
     reg_lists := {[ PStr "/sites/c1/s" := {[ PStr "l1" := PStr "Docs" ]} ]};
     reg_list_items := ∅ |}.

Definition delta_two : registry :=
  {| reg_sites := {[ PStr "s2" := PStr "/sites/c1/t" ]};
     reg_lists := ∅;
     reg_list_items := {[ PStr "/sites/c1/t" := {[ PStr "Tasks" := [PStr "g7"] ]} ]} |}.

Definition include_title : fields_cfg :=
  {| include_fields := Some ["Title"]; exclude_fields := Some ["Title"; "Created"] |}.

Definition demo_self (objs : list (string * option fields_cfg)) : fetch_index :=
  {| data := demo_config objs (Some 1); start_time := 0; end_time := 10 |}.

Definition quiet_world : world := demo_world sink_accepts (Some not_found) (λ _, None).

Definition demo_rows : gmap string string := rows_of [("Bob", "bob@example.org")].

Definition role_group : role :=
  {| member_title := "Home Members"; member_users := UsersResults ["Ann"; "Bob"; "Eve"] |}.

Definition role_user : role :=
  {| member_title := "Bob"; member_users := UsersAbsent |}.

Definition idle_state : fetch_state :=
  {| is_error := false; ids := empty_registry; calls := [] |}.

(** The same farm when every query comes back empty-handed. *)
Definition silent_world : world :=
  farm_world (λ _ _, Falsy) sink_accepts (Some not_found) (λ _, None).

(** The state of a connector whose identifier file exists but does not
    parse, and one whose last incremental pass ended at second 100. *)
Definition stale_state : sync_state :=
  {| ids_file := Some None; checkpoints := ∅; errors_shared := [] |}.

Definition caught_up : pass_state :=
  {| p_checkpoints := {[ "c1" := (100, "incremental") ]};
     p_errors_shared := [];
     p_global_keys := ∅;
     p_events := [] |}.

(** The batches [index_chunks] hands to the sink: those of the list up to
    and including the first one the sink raises on. *)
Fixpoint attempted (w : world) (chunks : list (list doc)) : list (list doc) :=
  match chunks with
  | [] => []
  | chunk :: rest =>
      chunk :: match ws_index_documents w chunk with
               | SinkRaises => []
               | SinkResults _ => attempted w rest
               end
  end.

(** The state a computation ends in, returned or raised. *)
Definition state_of {A} (o : outcome A) : fetch_state :=
  match o with
  | Returned _ s => s
  | Raised _ s => s
  end.

(** The worker's run of [indexing] on the demo farm. *)
Definition demo_run (sink : list doc → sink_result) : list sink_call * shared :=
  indexing (demo_world sink (Some not_found) (λ _, None)) (demo_self all_objects) "c1"
    empty_registry {| storage := empty_registry; is_error_shared := [] |}.

(** A computation that adds no batch to the log, however it ends. *)
Definition no_batch {A} (m : M A) : Prop :=
  ∀ s, submitted (calls (state_of (m s))) = submitted (calls s).

(** The url of the attachment download of [index_items]. *)
Definition attachment_url (w : world) (self : fetch_index) (value0 file_relative_url : pyval)
  : string :=
  urljoin w (sharepoint_host_url (data self))
    (py_str value0 +:+ "/_api/web/GetFileByServerRelativeUrl('"
     +:+ py_str file_relative_url +:+ "')/$value").

Definition demo_entries : list attachment_entry :=
  [{| attachment_files := [PStr "/sites/c1/s/Lists/Docs/Attachments/1/a.txt"] |}].

Definition server_error : file_response := {| status_code := 500; content := EmptyString |}.
Definition garbled : file_response := {| status_code := 200; content := "%PDF" |}.

(** What the source answers for the lists of a site, after
    [check_response]; the sites of a sequence that produce lists, each with
    its answer; and the base url of the documents of a site's lists. *)
Definition lists_of_site (w : world) (self : fetch_index) (site : pyval)
  : option (list attrs) :=
  check_response
    (sp_get w (urljoin w (sharepoint_host_url (data self)) (py_str site +:+ "/_api/web/lists"))
       (get_query w (start_time self) (end_time self) LISTS)) LISTS.

Definition producing_sites (w : world) (self : fetch_index) (sites : list pyval)
  : list (pyval * list attrs) :=
  omap (λ site, match lists_of_site w self site with
                | Some (o :: os) => Some (site, o :: os)
                | _ => None
                end) sites.

Definition base_list_url (w : world) (self : fetch_index) (site : pyval) : string :=
  urljoin w (sharepoint_host_url (data self)) (py_str site +:+ "/Lists/").

(** [d] is a document of the list object [o] of [site]: its [url] is the
    one [index_lists] builds from the site and the list's title. *)
Definition list_doc_of (w : world) (self : fetch_index) (site : pyval) (d : doc) (o : attrs)
  : Prop :=
  ∃ title, o !! "Title" = Some (PStr title)
           ∧ d !! "url"
             = Some (DVal (PStr (urljoin w (base_list_url w self site) (re_sub_title w title)))).

(** [D] holds one document for each list of the producing site [p]. *)
Definition site_docs (w : world) (self : fetch_index) (D : list doc)
    (p : pyval * list attrs) : Prop :=
  Forall2 (list_doc_of w self p.1) D p.2.

(** A farm with two sites that both have lists. *)
Definition other_list : attrs :=
  {[ "Id" := PStr "l2"; "Title" := PStr "Tasks"; "ParentWebUrl" := PStr "/sites/c1/t" ]}.

Definition two_sites_get (url query : string) : response attrs :=
  if bool_decide (url = "http://sp/sites/c1/s/_api/web/lists") then Results (Some [demo_list])
  else if bool_decide (url = "http://sp/sites/c1/t/_api/web/lists") then
    Results (Some [other_list])
  else Falsy.

Definition two_sites_world : world :=
  farm_world two_sites_get sink_accepts (Some not_found) (λ _, None).

Definition two_sites : list pyval := [PStr "/sites/c1/s"; PStr "/sites/c1/t"].

(** ** Further measures *)

(** The sink raises on this batch. *)
Definition sink_raises (w : world) (chunk : list doc) : bool :=
  match ws_index_documents w chunk with
  | SinkRaises => true
  | SinkResults _ => false
  end.

(** The permissions [list_permissions] answered, none when it raised or
    answered something falsy. *)
Definition listed_permissions (w : world) : list (string * list string) :=
  match ws_list_permissions w with
  | Some (Some permission_list) => permission_list
  | _ => []
  end.

(** The answer to the sites query of a collection, after [check_response]. *)
Definition sites_of_collection (w : world) (self : fetch_index) (collection : string)
  : option (list attrs) :=
  check_response
    (sp_get w (urljoin w (sharepoint_host_url (data self))
                 ("/sites/" +:+ collection +:+ "/_api/web/webs"))
       (get_query w (start_time self) (end_time self) SITES)) SITES.

(** The [lists] dictionary built from a sequence of list objects. *)
Definition lists_from (objs : list attrs) : lists_dict :=
  foldl (λ lists result,
           dict_set (attr_get result "Id")
                    (attr_get result "ParentWebUrl", attr_get result "Title") lists)
        [] objs.

(** A world that differs in what [fetch_users] answers. *)
Definition with_fetch_users
    (f : string → string → option pyval → option string → response role) (w : world)
  : world :=
  {| urljoin := urljoin w;
     re_sub_title := re_sub_title w;
     encode := encode w;
     get_query := get_query w;
     sp_get := sp_get w;
     sp_get_attachments := sp_get_attachments w;
     sp_get_file := sp_get_file w;
     fetch_users := f;
     tika_extract := tika_extract w;
     ws_index_documents := ws_index_documents w;
     ws_add_user_permissions := ws_add_user_permissions w;
     ws_list_permissions := ws_list_permissions w;
     ws_remove_user_permissions := ws_remove_user_permissions w;
     cpu_count := cpu_count w;
     DEFAULT_SCHEMA := DEFAULT_SCHEMA w;
     mapping_rows := mapping_rows w |}.

(** The farm when the role assignments cannot be fetched. *)
Definition denied_world : world := with_fetch_users (λ _ _ _ _, Falsy) quiet_world.

(** A configuration that crawls the sites only. *)
Definition sites_only : list (string * option fields_cfg) := [(SITES, None)].

(** ** Invariants of a run *)

(** No key of any level of [r] is missing from [r']. *)
Definition registry_keeps (r r' : registry) : Prop :=
  (dom (reg_sites r) : gset pyval) ⊆ dom (reg_sites r')
  ∧ (dom (reg_lists r) : gset pyval) ⊆ dom (reg_lists r')
  ∧ (dom (reg_list_items r) : gset pyval) ⊆ dom (reg_list_items r').

(** From [s] to [s'] no registry key was dropped and, when [strict], a set
    [is_error] was not cleared. *)
Definition grows (strict : bool) (s s' : fetch_state) : Prop :=
  (strict = true → is_error s = true → is_error s' = true)
  ∧ registry_keeps (ids s) (ids s').

(** However the computation ends, its final state grew from the initial one. *)
Definition respects (strict : bool) {A} (m : M A) : Prop :=
  ∀ s, grows strict s (state_of (m s)).

(** A run that already met a failure, and a registry with one known site. *)
Definition failed_state : fetch_state :=
  {| is_error := true; ids := delta_one; calls := [] |}.

(** [o'] is [o] after [o['Created'] += 'Z']. *)
Definition created_suffixed (o o' : attrs) : Prop :=
  ∃ created, o !! "Created" = Some (PStr created)
             ∧ o' = <["Created" := PStr (created +:+ "Z")]> o.

(** ** [usergroup_permissions.py]: the requests of [Permissions] *)

Definition LIST_ITEMS : string := "list_items".
Definition DRIVE_ITEMS : string := "drive_items".

(** [s.endswith("/")] *)
Fixpoint ends_with_slash (s : string) : bool :=
  match s with
  | EmptyString => false
  | String c rest =>
      match rest with
      | EmptyString => bool_decide (String c EmptyString = "/")
      | String _ _ => ends_with_slash rest
      end
  end.

(** [maps[key]] for the dictionary [fetch_users] builds from [list_id] and
    [item_id]; [None] is the [KeyError] of any other key. *)
Definition permission_maps (list_id item_id : pyval) (key : string) : option string :=
  if bool_decide (key = SITES) then
    Some "_api/web/roleassignments?$expand=Member/users,RoleDefinitionBindings"
  else if bool_decide (key = LISTS) then
    Some ("_api/web/lists(guid'" +:+ py_str list_id
          +:+ "')/roleassignments?$expand=Member/users,RoleDefinitionBindings")
  else if bool_decide (key = LIST_ITEMS) then
    Some ("_api/web/lists(guid'" +:+ py_str list_id +:+ "')/items(" +:+ py_str item_id
          +:+ ")/roleassignments?$expand=Member/users,RoleDefinitionBindings")
  else if bool_decide (key = DRIVE_ITEMS) then
    Some ("_api/web/lists(guid'" +:+ py_str list_id +:+ "')/items(" +:+ py_str item_id
          +:+ ")/roleassignments?$expand=Member/users,RoleDefinitionBindings")
  else None.

(** The arguments of a call of [sharepoint_client.get]. *)
Record client_get := {
  get_url : string;
  get_rel_query : string;
  get_param : string;
}.

(** [Permissions.fetch_users]: the request it makes of the client. *)
Definition permissions_fetch_users (key rel_url : string) (list_id item_id : pyval)
  : option client_get :=
  let rel_url := if ends_with_slash rel_url then rel_url else rel_url +:+ "/" in
  match permission_maps list_id item_id key with
  | Some query =>
      Some {| get_url := rel_url; get_rel_query := query; get_param := "permission_users" |}
  | None => None
  end.

(** [Permissions.fetch_groups] *)
Definition permissions_fetch_groups (rel_url : string) (userid : pyval) : client_get :=
  {| get_url := rel_url;
     get_rel_query := "_api/web/GetUserById(" +:+ py_str userid +:+ ")/groups";
     get_param := "permission_groups" |}.

(** The answer to the items query of a list, after [check_response]. *)
Definition items_of_list (w : world) (self : fetch_index) (value0 : pyval)
    (encoded : string) : option (list attrs) :=
  check_response
    (sp_get w (urljoin w (sharepoint_host_url (data self))
                 (py_str value0 +:+ "/_api/web/lists/getbytitle('" +:+ encoded +:+ "')/items"))
       (get_query w (start_time self) (end_time self) ITEMS)) ITEMS.

(** The base url of the documents of a list's items, and the attachment
    listing of the list, as [index_items] computes them. *)
Definition item_base_url (w : world) (self : fetch_index) (value0 : pyval) (title : string)
  : string :=
  urljoin w (sharepoint_host_url (data self))
    (py_str value0 +:+ "/Lists/" +:+ re_sub_title w title +:+ "/DispForm.aspx?ID=").

Definition attachments_of_list (w : world) (self : fetch_index) (value0 : pyval)
    (encoded : string) : option (list attachment_entry) :=
  check_response
    (sp_get_attachments w
       (urljoin w (sharepoint_host_url (data self))
          (py_str value0 +:+ "/_api/web/lists/getbytitle('" +:+ encoded
           +:+ "')/items?$select=Attachments,AttachmentFiles,Title&$expand=AttachmentFiles"))
       "?") "attachment".

(** The state after [ids["list_items"][value[0]].update({value[1]: []})]. *)
Definition reset_guids (value0 value1 : pyval) (s : fetch_state) : fetch_state :=
  {| is_error := is_error s;
     ids := {| reg_sites := reg_sites (ids s);
               reg_lists := reg_lists (ids s);
               reg_list_items :=
                 alter (insert (pykey value1) []) (pykey value0) (reg_list_items (ids s)) |};
     calls := calls s |}.

Definition is_set_checkpoint (e : sync_event) : bool :=
  match e with
  | SetCheckpoint _ _ _ => true
  | _ => false
  end.
(** * Properties *)

(** ** Time-window partitioning *)

Section Rounding.
Variables a b : Z.
Hypothesis Hb : 0 < b.
Hypothesis Ha : 0 ≤ a.

(** The rounded quotient is the floor or the floor plus one, and it is
    the latter only when the remainder is at least half the divisor. *)
Lemma divide_and_round_cases :
  divide_and_round a b = a `div` b
  ∨ (divide_and_round a b = a `div` b + 1 ∧ b ≤ 2 * (a `mod` b)).
Proof using Hb.
  unfold divide_and_round.
  destruct (0 <? b) eqn:Hpos; [|lia].
  destruct (b <? 2 * (a `mod` b)) eqn:Hgt; simpl.
  - right. lia.
  - destruct (2 * (a `mod` b) =? b) eqn:Heq; simpl; [|by left].
    destruct ((a `div` b) `mod` 2 =? 1); [right; lia | by left].
Qed.

Lemma divide_and_round_nonneg : 0 ≤ divide_and_round a b.
Proof using Hb Ha.
  pose proof (Z.div_pos a b Ha Hb).
  destruct divide_and_round_cases as [-> | [-> _]]; lia.
Qed.

(** The first [b] multiples of the step stay within [a] when [a] is
    large enough for the rounding error not to add up to a whole step. *)
Lemma divide_and_round_no_overshoot :
  b * (b + 1) ≤ 2 * a → divide_and_round a b * (b - 1) ≤ a.
Proof using Hb Ha.
  intros Hbig.
  pose proof (Z.div_mod a b ltac:(lia)) as Hdm.
  pose proof (Z.mod_pos_bound a b Hb) as Hr.
  pose proof (Z.div_pos a b Ha Hb) as Hq.
  destruct divide_and_round_cases as [-> | [-> Hhalf]]; [nia|].
  assert (b ≤ 2 * (a `div` b) + 1) by nia.
  nia.
Qed.
End Rounding.

Lemma divide_and_round_zero (b : Z) : 0 < b → divide_and_round 0 b = 0.
Proof.
  intros Hb. unfold divide_and_round.
  destruct b; [lia | reflexivity | lia].
Qed.

(** The generator's list, index by index. *)
Lemma datetime_partitioning_lookup (s e : timestamp) (W : Z) (bs : list datetime) :
  datetime_partitioning s e W = Some bs → ∀ i : nat,
  bs !! i =
    if decide (i < Z.to_nat W)%nat then
      Some (strptime s + divide_and_round (strptime e - strptime s) W * Z.of_nat i)
    else if decide (i = Z.to_nat W) then Some (strptime e) else None.
Proof.
  unfold datetime_partitioning. destruct (W =? 0); [done|].
  intros [= <-] i.
  destruct (decide (i < Z.to_nat W)%nat) as [Hlt|Hge].
  - rewrite lookup_app_l by (by rewrite length_map, length_seq).
    rewrite list_lookup_fmap, lookup_seq_lt by done. done.
  - rewrite lookup_app_r by (rewrite length_map, length_seq; lia).
    rewrite length_map, length_seq.
    destruct (decide (i = Z.to_nat W)) as [->|Hne].
    + by rewrite Nat.sub_diag.
    + destruct (i - Z.to_nat W)%nat eqn:E; [lia | done].
Qed.

Lemma datetime_partitioning_length (s e : timestamp) (W : Z) (bs : list datetime) :
  datetime_partitioning s e W = Some bs → length bs = S (Z.to_nat W).
Proof.
  unfold datetime_partitioning. destruct (W =? 0); [done|].
  intros [= <-]. rewrite length_app, length_map, length_seq. simpl. lia.
Qed.

(** The scenario of the specification: 00:00 to 08:00 in four parts. *)
Example datetime_partitioning_scenario :
  (datelist_of <$> datetime_partitioning 0 (8 * 3600) 4)
  = Some [0; 2 * 3600; 4 * 3600; 6 * 3600; 8 * 3600].
Proof. reflexivity. Qed.

Lemma strftime_strptime (t : timestamp) : strftime (strptime t) = t.
Proof. unfold strftime, strptime. by rewrite Z.div_mul. Qed.

Lemma strftime_mono (x y : datetime) : x ≤ y → strftime x ≤ strftime y.
Proof. intros H. unfold strftime. by apply Z.div_le_mono. Qed.

Lemma non_decreasing_datelist (bs : list datetime) :
  non_decreasing bs → non_decreasing (datelist_of bs).
Proof.
  intros H i j x y Hij. unfold datelist_of. rewrite !list_lookup_fmap.
  destruct (bs !! i) as [x'|] eqn:Ex; [|done].
  destruct (bs !! j) as [y'|] eqn:Ey; [|done].
  intros [= <-] [= <-]. apply strftime_mono. by eapply H.
Qed.

(** C3, as the code has it: for [start <= end] and [W > 0] the generator
    yields exactly [W + 1] boundaries, the first is [start], the last is
    [end] exactly (also once formatted back to seconds), and the first [W]
    of them never decrease; the whole sequence, and its formatted form, never
    decreases when [W <= 1413], or [W * (W + 1) <= 2 * (end - start)] in
    microseconds, or [start = end]. *)
Theorem datetime_partitioning_boundaries (start_time end_time : timestamp) (W : Z) :
  start_time ≤ end_time → 0 < W →
  ∃ bs : list datetime,
    datetime_partitioning start_time end_time W = Some bs
    ∧ length bs = S (Z.to_nat W)
    ∧ head bs = Some (strptime start_time)
    ∧ last bs = Some (strptime end_time)
    ∧ head (datelist_of bs) = Some start_time
    ∧ last (datelist_of bs) = Some end_time
    ∧ non_decreasing (take (Z.to_nat W) bs)
    ∧ (W ≤ 1413
       ∨ W * (W + 1) ≤ 2 * (strptime end_time - strptime start_time)
       ∨ start_time = end_time →
       non_decreasing bs ∧ non_decreasing (datelist_of bs)).
Proof.
  intros Hle HW.
  destruct (datetime_partitioning start_time end_time W) as [bs|] eqn:Hbs;
    [| unfold datetime_partitioning in Hbs; destruct (W =? 0) eqn:E; [lia | done]].
  pose proof (datetime_partitioning_lookup _ _ _ _ Hbs) as Hlk.
  pose proof (datetime_partitioning_length _ _ _ _ Hbs) as Hlen.
  assert (0 ≤ strptime end_time - strptime start_time) as HD
    by (unfold strptime; lia).
  pose proof (divide_and_round_nonneg _ _ HW HD) as Hdiff.
  set (diff := divide_and_round (strptime end_time - strptime start_time) W) in *.
  assert (head bs = Some (strptime start_time)) as Hhead.
  { rewrite head_lookup, (Hlk 0%nat). rewrite decide_True by lia. f_equal. lia. }
  assert (last bs = Some (strptime end_time)) as Hlast.
  { rewrite last_lookup, Hlen. simpl. rewrite (Hlk (Z.to_nat W)).
    rewrite decide_False by lia. by rewrite decide_True. }
  exists bs. split; [done|]. split; [done|]. split; [done|]. split; [done|].
  split; [|split; [|split]].
  - unfold datelist_of. rewrite head_lookup, list_lookup_fmap, <- head_lookup, Hhead.
    simpl. by rewrite strftime_strptime.
  - unfold datelist_of. rewrite last_lookup, length_map, list_lookup_fmap, <- last_lookup, Hlast.
    simpl. by rewrite strftime_strptime.
  - intros i j x y Hij Hi Hj.
    apply lookup_take_Some in Hi as [Hi Hilt]. apply lookup_take_Some in Hj as [Hj Hjlt].
    rewrite Hlk, decide_True in Hi by lia. rewrite Hlk, decide_True in Hj by lia.
    simplify_eq. nia.
  - intros Hcond.
    assert (diff * (W - 1) ≤ strptime end_time - strptime start_time) as Hno.
    { assert (start_time = end_time
              ∨ W * (W + 1) ≤ 2 * (strptime end_time - strptime start_time)) as [->|Hbig].
      { destruct Hcond as [Hsmall | [Hbig | Heq]]; [|by right|by left].
        destruct (decide (start_time = end_time)); [by left|right].
        unfold strptime. nia. }
      - subst diff. rewrite Z.sub_diag, divide_and_round_zero by done. lia.
      - by apply divide_and_round_no_overshoot. }
    assert (non_decreasing bs) as Hmono.
    { intros i j x y Hij. rewrite !Hlk.
      repeat case_decide; intros; simplify_eq; try lia; nia. }
    split; [done | by apply non_decreasing_datelist].
Qed.

(** At the scenario's window every part of the statement applies. *)
Lemma datetime_partitioning_boundaries_witness :
  (0:Z) ≤ 28800 ∧ (0:Z) < 4
  ∧ ∃ bs : list datetime,
      datetime_partitioning 0 28800 4 = Some bs
      ∧ datelist_of bs = [0; 7200; 14400; 21600; 28800]
      ∧ non_decreasing bs.
Proof.
  split; [lia|]. split; [lia|].
  destruct (datetime_partitioning_boundaries 0 28800 4 ltac:(lia) ltac:(lia))
    as (bs & H1 & _ & _ & _ & _ & _ & _ & H8).
  exists bs. split; [exact H1|]. split.
  - injection H1 as <-. reflexivity.
  - apply H8. left. lia.
Defined.

(** The rounded step can overshoot. One second cut in 1800 parts has a
    step of 556 microseconds, and the boundary before the last lies past the
    end of the window. Two seconds cut in 3.9 million parts have a step of
    one microsecond, and the boundary before the last, formatted, is second 3
    while the last is second 2. *)
Lemma datetime_partitioning_not_monotone :
  (∃ bs x y,
     datetime_partitioning 0 1 1800 = Some bs
     ∧ bs !! 1799%nat = Some x ∧ bs !! 1800%nat = Some y ∧ ¬ x ≤ y)
  ∧ (∃ bs x y,
       datetime_partitioning 0 2 3900000 = Some bs
       ∧ datelist_of bs !! Z.to_nat 3899999 = Some x
       ∧ datelist_of bs !! Z.to_nat 3900000 = Some y ∧ ¬ x ≤ y).
Proof.
  split.
  - eexists _, 1000244, 1000000. split; [reflexivity|].
    split; [vm_compute; reflexivity|]. split; [vm_compute; reflexivity | lia].
  - assert (∃ bs, datetime_partitioning 0 2 3900000 = Some bs) as [bs Hbs].
    { unfold datetime_partitioning.
      destruct (3900000 =? 0) eqn:E; [lia | eauto]. }
    pose proof (datetime_partitioning_lookup _ _ _ _ Hbs) as Hlk.
    exists bs, 3, 2. split; [done|]. unfold datelist_of.
    rewrite !list_lookup_fmap, !Hlk.
    rewrite decide_True by lia. rewrite decide_False by lia. rewrite decide_True by done.
    rewrite Z2Nat.id by lia.
    split; [vm_compute; reflexivity|]. split; [vm_compute; reflexivity | lia].
Qed.

(** ** Identity registry: the merge at the end of [indexing] *)

Lemma merge_level_union {V} (delta prev : gmap pyval V) :
  merge_level delta prev = delta ∪ prev.
Proof.
  unfold merge_level. case_bool_decide as E; [|done].
  by rewrite E, (left_id_L ∅ (∪)).
Qed.

Lemma merge_level_size {V} (delta prev : gmap pyval V) :
  delta ##ₘ prev → size (merge_level delta prev) = (size delta + size prev)%nat.
Proof. intros. rewrite merge_level_union. by apply map_size_disj_union. Qed.

Lemma merge_level_other {V} (delta prev : gmap pyval V) (k : pyval) :
  delta !! k = None → merge_level delta prev !! k = prev !! k.
Proof. intros. rewrite merge_level_union. by apply lookup_union_r. Qed.

Lemma merge_ids_empty (st : registry) : merge_ids empty_registry st = st.
Proof. by destruct st. Qed.

Lemma merge_ids_size (delta st : registry) :
  registry_disjoint delta st →
  registry_size (merge_ids delta st) = (registry_size delta + registry_size st)%nat.
Proof.
  intros (H1 & H2 & H3). unfold registry_size, merge_ids. simpl.
  rewrite !merge_level_size by done. lia.
Qed.


(** ** Schema projector: [get_schema_fields] *)

Section Schema.
Variables (w : world) (self : fetch_index) (document_name : string).
Variable fields : fields_cfg.
Hypothesis Hfields : objects_get (objects (data self)) document_name = Some fields.

Lemma fields_truthy_of_include :
  list_truthy (include_fields fields) = true → fields_truthy fields = true.
Proof using Type.
  unfold fields_truthy. destruct (include_fields fields); [|done].
  intros _. by rewrite bool_decide_eq_true_2.
Qed.

Lemma fields_truthy_of_exclude :
  list_truthy (exclude_fields fields) = true → fields_truthy fields = true.
Proof using Type.
  unfold fields_truthy. destruct (exclude_fields fields); [|done].
  intros _. rewrite (bool_decide_eq_true_2 (is_Some (Some l))) by done.
  by rewrite orb_true_r.
Qed.

Lemma schema_include (field attr : string) :
  list_truthy (include_fields fields) = true →
  get_schema_fields w self document_name !! field = Some attr →
  field ≠ "id" → attr ∈ default [] (include_fields fields).
Proof using Hfields.
  intros Hinc. unfold get_schema_fields.
  rewrite Hfields, (fields_truthy_of_include Hinc), Hinc.
  intros Hlk Hne. rewrite lookup_insert_ne in Hlk by done.
  apply map_lookup_filter_Some in Hlk as [_ Hin]. done.
Qed.

Lemma schema_exclude (field attr : string) :
  list_truthy (include_fields fields) = false →
  list_truthy (exclude_fields fields) = true →
  get_schema_fields w self document_name !! field = Some attr →
  field ≠ "id" → attr ∉ default [] (exclude_fields fields).
Proof using Hfields.
  intros Hinc Hexc. unfold get_schema_fields.
  rewrite Hfields, (fields_truthy_of_exclude Hexc), Hinc, Hexc.
  intros Hlk Hne. rewrite lookup_insert_ne in Hlk by done.
  apply map_lookup_filter_Some in Hlk as [_ Hin]. done.
Qed.

Lemma schema_id :
  fields_truthy fields = true →
  get_schema_fields w self document_name !! "id"
  = Some (if bool_decide (document_name = ITEMS) then "GUID" else "Id").
Proof using Hfields.
  intros Ht. unfold get_schema_fields. rewrite Hfields, Ht.
  by rewrite lookup_insert_eq.
Qed.
End Schema.

(** With a non-empty include-list the result does not depend on what the
    exclude-list holds. *)
Lemma schema_exclude_ignored (w : world) (self self' : fetch_index)
    (document_name : string) (fields fields' : fields_cfg) :
  objects_get (objects (data self)) document_name = Some fields →
  objects_get (objects (data self')) document_name = Some fields' →
  include_fields fields = include_fields fields' →
  list_truthy (include_fields fields) = true →
  get_schema_fields w self document_name = get_schema_fields w self' document_name.
Proof.
  intros H1 H2 Heq Hinc. unfold get_schema_fields.
  rewrite H1, H2, (fields_truthy_of_include _ Hinc).
  rewrite Heq in Hinc. rewrite (fields_truthy_of_include _ Hinc), Hinc.
  rewrite <- Heq in Hinc. by rewrite Hinc, Heq.
Qed.

(** C5, as the code has it: apart from the [id] entry the projector injects,
    every source attribute of the output is in a non-empty include-list; with
    no (or an empty) include-list and a non-empty exclude-list none of them is
    in the exclude-list; with a non-empty include-list the exclude-list has
    no effect; the injected [id] maps to [GUID] for items and to [Id]
    otherwise. *)
Theorem get_schema_fields_filter (w : world) (self : fetch_index)
    (document_name : string) (fields : fields_cfg) :
  objects_get (objects (data self)) document_name = Some fields →
  (list_truthy (include_fields fields) = true →
     ∀ field attr, get_schema_fields w self document_name !! field = Some attr →
       field ≠ "id" → attr ∈ default [] (include_fields fields))
  ∧ (list_truthy (include_fields fields) = false →
     list_truthy (exclude_fields fields) = true →
     ∀ field attr, get_schema_fields w self document_name !! field = Some attr →
       field ≠ "id" → attr ∉ default [] (exclude_fields fields))
  ∧ (list_truthy (include_fields fields) = true →
     ∀ self' fields',
       objects_get (objects (data self')) document_name = Some fields' →
       include_fields fields' = include_fields fields →
       get_schema_fields w self' document_name = get_schema_fields w self document_name)
  ∧ (fields_truthy fields = true →
     get_schema_fields w self document_name !! "id"
     = Some (if bool_decide (document_name = ITEMS) then "GUID" else "Id")).
Proof.
  intros Hf. split; [|split; [|split]].
  - intros Hinc field attr. by apply schema_include.
  - intros Hinc Hexc field attr. by apply schema_exclude.
  - intros Hinc self' fields' Hf' Heq. symmetry.
    by eapply schema_exclude_ignored.
  - by apply schema_id.
Qed.


Lemma get_schema_fields_filter_witness :
  objects_get (objects (data (demo_self [(LISTS, Some include_title)]))) LISTS
    = Some include_title
  ∧ "Title" ∈ default [] (include_fields include_title).
Proof.
  split; [reflexivity|].
  destruct (get_schema_fields_filter quiet_world (demo_self [(LISTS, Some include_title)])
              LISTS include_title eq_refl) as [H _].
  apply (H eq_refl "title" "Title"); [vm_compute; reflexivity | discriminate].
Defined.

(** The injected [id] is in the output whatever the include-list says: with
    the include-list [["Title"]] the output maps [id] to [Id]. *)
Lemma get_schema_fields_id_outside_include :
  ¬ (∀ field attr,
       get_schema_fields quiet_world (demo_self [(LISTS, Some include_title)]) LISTS
         !! field = Some attr →
       attr ∈ default [] (include_fields include_title)).
Proof.
  intros H. specialize (H "id" "Id" ltac:(vm_compute; reflexivity)).
  simpl in H. apply list_elem_of_singleton in H. discriminate.
Qed.

(** ** Permission resolver: the expansion of role assignments *)

Lemma add_member_users_calls (w : world) (rows : gmap string string) (title : string)
    (users : list string) (s : fetch_state) :
  ∃ s', add_member_users w rows title users s = Returned tt s'
        ∧ calls s' = calls s
                     ++ map (λ user, AddUserPermissions (rows_get rows user) title) users
        ∧ ids s' = ids s.
Proof.
  revert s. induction users as [|user rest IH]; intros s; simpl.
  - exists s. by rewrite app_nil_r.
  - unfold bind, workplace_add_permission, bind, call_sink. simpl.
    destruct (ws_add_user_permissions w (rows_get rows user) title); simpl.
    + destruct (IH {| is_error := is_error s; ids := ids s;
                      calls := calls s ++ [AddUserPermissions (rows_get rows user) title] |})
        as (s' & -> & Hc & Hi).
      exists s'. simpl in *. by rewrite Hc, <- app_assoc.
    + destruct (IH {| is_error := true; ids := ids s;
                      calls := calls s ++ [AddUserPermissions (rows_get rows user) title] |})
        as (s' & -> & Hc & Hi).
      exists s'. simpl in *. by rewrite Hc, <- app_assoc.
Qed.

Lemma workplace_add_permission_calls (w : world) (user_name permission : string)
    (s : fetch_state) :
  ∃ s', workplace_add_permission w user_name permission s = Returned tt s'
        ∧ calls s' = calls s ++ [AddUserPermissions user_name permission]
        ∧ ids s' = ids s.
Proof.
  unfold workplace_add_permission, bind, call_sink. simpl.
  destruct (ws_add_user_permissions w user_name permission); simpl; eauto.
Qed.

Lemma expand_roles_calls (w : world) (rows : gmap string string) (roles : list role) :
  Forall (λ r, member_users r ≠ UsersDeferred) roles →
  ∀ (groups : list string) (s : fetch_state),
  ∃ s', expand_roles w rows roles groups s
          = Returned (groups ++ map member_title roles) s'
        ∧ calls s' = calls s ++ concat (map (grants_of_role rows) roles)
        ∧ ids s' = ids s.
Proof.
  induction 1 as [|r rest Hr Hrest IH]; intros groups s; simpl.
  - exists s. by rewrite !app_nil_r.
  - unfold grants_of_role at 1. destruct (member_users r) as [|users|] eqn:E; [| |done].
    + unfold bind.
      destruct (workplace_add_permission_calls w (rows_get rows (member_title r))
                  (rows_get rows (member_title r)) s) as (s1 & -> & Hc1 & Hi1).
      destruct (IH (groups ++ [member_title r]) s1) as (s' & -> & Hc & Hi).
      exists s'. rewrite <- app_assoc. simpl.
      rewrite Hc, Hc1, <- app_assoc, Hi, Hi1. done.
    + unfold bind.
      destruct (add_member_users_calls w rows (member_title r) users s)
        as (s1 & -> & Hc1 & Hi1).
      destruct (IH (groups ++ [member_title r]) s1) as (s' & -> & Hc & Hi).
      exists s'. rewrite <- app_assoc. simpl.
      rewrite Hc, Hc1, <- app_assoc, Hi, Hi1. done.
Qed.



(** A group whose member list is enumerated and empty gets no push at all:
    the [K] of the statement may be zero. *)
Example empty_group_no_push :
  grants_of_role demo_rows {| member_title := "Visitors"; member_users := UsersResults [] |}
  = [].
Proof. reflexivity. Qed.

(** ** A source that answers nothing *)

Section Silent.
Variables (w : world) (self : fetch_index) (collection : string).
Hypothesis Hsilent : source_silent w.

Lemma index_sites_silent (index : bool) (s : fetch_state) :
  index_sites w self collection index s = Returned [] s.
Proof using Hsilent.
  unfold index_sites.
  pose proof (Hsilent
    (urljoin w (sharepoint_host_url (data self))
       ("/sites/" +:+ collection +:+ "/_api/web/webs"))
    (get_query w (start_time self) (end_time self) SITES) SITES) as H.
  destruct (check_response _ SITES) as [[|o os]|]; done.
Qed.

Lemma get_site_paths_silent (s : fetch_state) :
  get_site_paths w self collection [] s = Returned [] s.
Proof using Hsilent.
  unfold get_site_paths, bind. by rewrite index_sites_silent.
Qed.

Lemma get_lists_paths_silent (s : fetch_state) :
  get_lists_paths w self collection [] [] s = Returned [] s.
Proof using Hsilent.
  unfold get_lists_paths, bind. by rewrite get_site_paths_silent.
Qed.

Lemma indexing_items_silent (key : string) (s : fetch_state) :
  is_error s = false →
  indexing_items w self collection key [] [] s = Returned ([], []) s.
Proof using Hsilent.
  intros Hs. unfold indexing_items, bind, get_is_error, ret. rewrite Hs. simpl.
  rewrite andb_true_r. destruct (bool_decide (key = ITEMS)); [|done].
  by rewrite get_lists_paths_silent.
Qed.

Lemma indexing_key_silent (key : string) (ids0 : registry) (made : list sink_call) :
  indexing_key w self collection key [] []
    {| is_error := false; ids := ids0; calls := made |}
  = Returned ([], []) {| is_error := false; ids := ids0; calls := made |}.
Proof using Hsilent.
  unfold indexing_key, bind.
  destruct (bool_decide (key = SITES)).
  - rewrite index_sites_silent, get_site_paths_silent. simpl.
    rewrite andb_true_r. destruct (bool_decide (key = LISTS)).
    + rewrite get_site_paths_silent. simpl.
      rewrite get_lists_paths_silent. by apply indexing_items_silent.
    + by apply indexing_items_silent.
  - unfold ret at 1. simpl.
    rewrite andb_true_r. destruct (bool_decide (key = LISTS)).
    + rewrite get_site_paths_silent. simpl.
      rewrite get_lists_paths_silent. by apply indexing_items_silent.
    + by apply indexing_items_silent.
Qed.

Lemma indexing_loop_silent (keys : list string) (ids0 : registry)
    (made : list sink_call) :
  indexing_loop w self collection keys [] []
    {| is_error := false; ids := ids0; calls := made |}
  = Returned tt {| is_error := false; ids := ids0; calls := made |}.
Proof using Hsilent.
  induction keys as [|key rest IH]; [done|].
  simpl. unfold bind. by rewrite indexing_key_silent.
Qed.

(** A worker whose queries all come back empty submits nothing and
    reports [False]. *)
Lemma indexing_silent (ids0 : registry) (sh : shared) :
  indexing w self collection ids0 sh
  = ([], {| storage := merge_ids ids0 (storage sh);
            is_error_shared := is_error_shared sh ++ [false] |}).
Proof using Hsilent.
  unfold indexing. by rewrite indexing_loop_silent.
Qed.
End Silent.

(** ** The coordinator *)

Lemma partition_windows_spec (datelist : list timestamp) (count num : nat) :
  (num + count < length datelist)%nat →
  ∃ windows,
    partition_windows datelist num count = Some windows
    ∧ length windows = count
    ∧ ∀ i s e, windows !! i = Some (s, e) →
        datelist !! (num + i)%nat = Some s ∧ datelist !! S (num + i) = Some e.
Proof.
  revert num. induction count as [|count IH]; intros num Hlen; simpl.
  - exists []. by repeat split.
  - destruct (lookup_lt_is_Some_2 datelist num ltac:(lia)) as [s Hs].
    destruct (lookup_lt_is_Some_2 datelist (S num) ltac:(lia)) as [e He].
    rewrite Hs, He.
    destruct (IH (S num) ltac:(lia)) as (rest & -> & Hl & Hrest).
    exists ((s, e) :: rest). split; [done|]. split; [simpl; lia|].
    intros [|i] s' e'; simpl.
    + intros [= <- <-]. by rewrite Nat.add_0_r.
    + intros Hi. apply Hrest in Hi.
      by replace (num + S i)%nat with (S num + i)%nat by lia.
Qed.

Lemma checkpoint_time_is_end (flags : list bool) (s e : timestamp) :
  checkpoint_time flags s e = e.
Proof.
  unfold checkpoint_time.
  replace (py_in (PStr "True") (map PBool flags)) with false; [done|].
  induction flags as [|b rest IH]; [done|]. simpl. by destruct b.
Qed.

Lemma run_jobs_events (w : world) (cfg : config) (collection : string) (ids0 : registry)
    (windows : list (timestamp * timestamp)) :
  ∀ (num : nat) (sh : shared),
    Forall (λ e, is_purge e = false ∧ is_start_process e = false)
           (run_jobs w cfg collection ids0 num windows sh).1.
Proof.
  induction windows as [|[s e] rest IH]; intros num sh; simpl; [constructor|].
  destruct (indexing _ _ _ _ _) as [made sh1].
  specialize (IH (S num) sh1).
  destruct (run_jobs _ _ _ _ _ _ _) as [events sh2]. simpl in *.
  apply Forall_app. split; [|done].
  apply Forall_fmap, Forall_true. by intros c.
Qed.

Lemma started_events (collection : string) (windows : list (timestamp * timestamp)) :
  ∀ f : nat → nat,
  Forall (λ e, is_purge e = false)
         (imap (λ num window, StartProcess collection (f num) window) windows)
  ∧ length (List.filter is_start_process
              (imap (λ num window, StartProcess collection (f num) window) windows))
    = length windows.
Proof.
  induction windows as [|win ws IH]; intros f; simpl; [by split|].
  destruct (IH (f ∘ S)) as [H1 H2]. split; [by constructor|].
  simpl. f_equal. exact H2.
Qed.

Lemma filter_none {A} (f : A → bool) (l : list A) :
  Forall (λ x, f x = false) l → List.filter f l = [].
Proof. induction 1 as [|x l Hx _ IH]; simpl; [done|]. by rewrite Hx. Qed.

Lemma sync_window_end (cfg : config) (indexing_type : string)
    (store : gmap string (timestamp * string)) (collection : string) (now : timestamp) :
  (sync_window cfg indexing_type store collection now).2 = now.
Proof.
  unfold sync_window, get_checkpoint. case_bool_decide; [|done].
  by destruct (store !! collection) as [[]|].
Qed.

(** What the body of the collection loop does to the state of the pass. *)
Lemma sync_collection_spec (w : world) (cfg : config) (indexing_type : string)
    (now : timestamp) (loaded : gmap string registry) (collection : string)
    (p : pass_state) :
  worker_count w cfg ≠ 0 →
  ∃ p' windows made,
    sync_collection w cfg indexing_type now loaded collection p = Some p'
    ∧ length windows = Z.to_nat (worker_count w cfg)
    ∧ p_events p' = p_events p
                    ++ imap (λ num window, StartProcess collection num window) windows
                    ++ made ++ [SetCheckpoint collection now indexing_type]
    ∧ Forall (λ e, is_purge e = false ∧ is_start_process e = false) made
    ∧ p_checkpoints p' = <[collection := (now, indexing_type)]> (p_checkpoints p).
Proof.
  intros HW. unfold sync_collection.
  pose proof (sync_window_end cfg indexing_type (p_checkpoints p) collection now) as Hend.
  destruct (sync_window _ _ _ _ _) as [s e]. simpl in Hend. subst e.
  destruct (datetime_partitioning s now (worker_count w cfg)) as [bs|] eqn:Hbs;
    [| unfold datetime_partitioning in Hbs;
       destruct (worker_count w cfg =? 0) eqn:E; [lia | done]].
  apply datetime_partitioning_length in Hbs.
  destruct (partition_windows_spec (datelist_of bs) (Z.to_nat (worker_count w cfg)) 0)
    as (windows & -> & Hlen & _).
  { unfold datelist_of. rewrite length_map, Hbs. lia. }
  pose proof (run_jobs_events w cfg collection
                (default empty_registry (loaded !! collection)) windows 0
                {| storage := empty_registry; is_error_shared := p_errors_shared p |}) as Hev.
  destruct (run_jobs _ _ _ _ _ _ _) as [made sh]. simpl in Hev.
  rewrite checkpoint_time_is_end.
  eexists _, windows, made. split; [reflexivity|]. simpl. by repeat split.
Qed.

Lemma sync_collections_spec (w : world) (cfg : config) (indexing_type : string)
    (now : timestamp) (loaded : gmap string registry) (collections : list string) :
  worker_count w cfg ≠ 0 →
  ∀ p : pass_state,
  ∃ p' rest,
    sync_collections w cfg indexing_type now loaded collections p = Some p'
    ∧ p_events p' = p_events p ++ rest
    ∧ Forall (λ e, is_purge e = false) rest
    ∧ length (List.filter is_start_process rest)
      = (length collections * Z.to_nat (worker_count w cfg))%nat
    ∧ (∀ c, c ∈ collections → p_checkpoints p' !! c = Some (now, indexing_type))
    ∧ (∀ c, c ∉ collections → p_checkpoints p' !! c = p_checkpoints p !! c).
Proof.
  intros HW. induction collections as [|c0 rest IH]; intros p; simpl.
  - exists p, []. rewrite app_nil_r. repeat split; try done. intros c Hc. by inversion Hc.
  - destruct (sync_collection_spec w cfg indexing_type now loaded c0 p HW)
      as (p1 & windows & made & -> & Hlen & Hev & Hmade & Hcp).
    destruct (IH p1) as (p' & more & -> & Hev' & Hmore & Hcount & Hin & Hout).
    destruct (started_events c0 windows id) as [Hst1 Hst2]. cbv [id] in Hst1, Hst2.
    exists p', ((imap (λ num window, StartProcess c0 num window) windows
                 ++ made ++ [SetCheckpoint c0 now indexing_type]) ++ more).
    split; [done|]. split; [by rewrite Hev', Hev, <- !app_assoc|].
    split; [|split; [|split]].
    + repeat (apply Forall_app; split); try done.
      * eapply Forall_impl; [exact Hmade|]. by intros e [].
      * by repeat constructor.
    + rewrite !List.filter_app, !length_app, Hcount, Hst2, Hlen.
      rewrite (filter_none is_start_process made)
        by (eapply Forall_impl; [exact Hmade|]; by intros e []).
      simpl. lia.
    + intros c Hc. destruct (decide (c ∈ rest)) as [Hr|Hr]; [by apply Hin|].
      rewrite Hout by done. rewrite Hcp.
      apply elem_of_cons in Hc as [->|]; [|done]. by rewrite lookup_insert_eq.
    + intros c Hc. apply not_elem_of_cons in Hc as [Hne Hr].
      rewrite Hout by done. rewrite Hcp. by rewrite lookup_insert_ne.
Qed.

Lemma remove_permissions_no_list (w : world) (l : list (string * list string)) :
  List.filter is_list_permissions (remove_permissions w l) = [].
Proof.
  induction l as [|[user perms] rest IH]; simpl; [done|].
  by destruct (ws_remove_user_permissions w user perms).
Qed.

Lemma remove_permissions_purge (w : world) (l : list (string * list string)) :
  Forall (λ e, is_purge e = true) (remove_permissions w l).
Proof.
  induction l as [|[user perms] rest IH]; simpl; [constructor|].
  constructor; [done|].
  destruct (ws_remove_user_permissions w user perms); [done | constructor].
Qed.

(** Whatever the workers reported, the boundary persisted for a collection
    is the end of its window. *)
Lemma sync_pass_checkpoint (w : world) (cfg : config) (indexing_type : string)
    (now : timestamp) (st : sync_state) :
  worker_count w cfg ≠ 0 →
  ∃ st' events,
    sync_pass w cfg indexing_type now st = Some (st', events)
    ∧ ∀ c, c ∈ site_collections cfg → checkpoints st' !! c = Some (now, indexing_type).
Proof.
  intros HW. unfold sync_pass.
  match goal with
  | |- context [sync_collections w cfg indexing_type now ?l ?cs ?p] =>
      destruct (sync_collections_spec w cfg indexing_type now l cs HW p)
        as (p' & rest & -> & _ & _ & _ & Hin & _)
  end.
  eexists _, _. split; [reflexivity|]. simpl. exact Hin.
Qed.

(** C2, as the code has it: in a [full_sync] pass that finds the identifier
    file present and non-empty, the events of the pass are those of one call
    of [remove_all_permissions] (one [list_permissions] request and the
    removals that follow it) and then the rest, which holds no purge event
    and every process start, [W] for each collection, whatever [W] is. *)
Theorem full_sync_purges_once_before_workers (w : world) (cfg : config)
    (now : timestamp) (st : sync_state) (content : option ids_store) :
  worker_count w cfg ≠ 0 →
  ids_file st = Some content →
  ∃ st' rest,
    sync_pass w cfg "full_sync" now st = Some (st', remove_all_permissions w ++ rest)
    ∧ Forall (λ e, is_purge e = false) rest
    ∧ Forall (λ e, is_purge e = true) (remove_all_permissions w)
    ∧ length (List.filter is_list_permissions (remove_all_permissions w ++ rest)) = 1%nat
    ∧ length (List.filter is_start_process rest)
      = (length (site_collections cfg) * Z.to_nat (worker_count w cfg))%nat.
Proof.
  intros HW Hfile. unfold sync_pass. rewrite Hfile.
  rewrite bool_decide_eq_true_2 by done.
  match goal with
  | |- context [sync_collections w cfg "full_sync" now ?l ?cs ?p] =>
      destruct (sync_collections_spec w cfg "full_sync" now l cs HW p)
        as (p' & rest & -> & Hev & Hrest & Hcount & _ & _)
  end.
  simpl in Hev. eexists _, rest. split; [by rewrite Hev|].
  split; [done|]. split; [|split; [|done]].
  - unfold remove_all_permissions. constructor; [done|].
    destruct (ws_list_permissions w) as [[l|]|]; try constructor.
    apply remove_permissions_purge.
  - rewrite List.filter_app, length_app.
    rewrite (filter_none is_list_permissions rest).
    + unfold remove_all_permissions. simpl.
      destruct (ws_list_permissions w) as [[l|]|]; simpl; try done.
      by rewrite remove_permissions_no_list.
    + eapply Forall_impl; [exact Hrest|]. by intros [].
Qed.

Lemma full_sync_purges_once_before_workers_witness :
  worker_count quiet_world (demo_config all_objects (Some 2)) ≠ 0
  ∧ ids_file stale_state = Some None
  ∧ ∃ st' rest,
      sync_pass quiet_world (demo_config all_objects (Some 2)) "full_sync" 100 stale_state
        = Some (st', remove_all_permissions quiet_world ++ rest)
      ∧ length (List.filter is_start_process rest) = 2%nat.
Proof.
  assert (worker_count quiet_world (demo_config all_objects (Some 2)) ≠ 0) as HW
    by (vm_compute; discriminate).
  split; [exact HW|]. split; [reflexivity|].
  destruct (full_sync_purges_once_before_workers quiet_world
              (demo_config all_objects (Some 2)) 100 stale_state None HW eq_refl)
    as (st' & rest & H1 & _ & _ & _ & H2).
  exists st', rest. split; [exact H1 | exact H2].
Defined.

(** A [full_sync] pass that finds no identifier file (the first pass of a
    connector) starts its two workers and sends no purge request at all. *)
Lemma full_sync_without_ids_file_no_purge :
  (λ r, (length (List.filter is_list_permissions r.2),
         length (List.filter is_purge r.2),
         length (List.filter is_start_process r.2)))
    <$> sync_pass quiet_world (demo_config all_objects (Some 2)) "full_sync" 100 fresh_state
  = Some (0%nat, 0%nat, 2%nat).
Proof. vm_compute. reflexivity. Qed.

(** C1 at a failing input: the sink is down, both workers of the pass end
    their items stage with [is_error] set and append [True]; the window is
    (0, 100) and the boundary persisted is 100, the end of the window. *)
Theorem checkpoint_advances_after_failure :
  sync_window (demo_config all_objects (Some 2)) "incremental" (checkpoints fresh_state)
              "c1" 100 = (0, 100)
  ∧ (λ r, (errors_shared r.1, checkpoints r.1 !! "c1"))
      <$> sync_pass (demo_world sink_down (Some not_found) (λ _, None))
            (demo_config all_objects (Some 2)) "incremental" 100 fresh_state
    = Some ([true; true], Some (100, "incremental")).
Proof. split; vm_compute; reflexivity. Qed.

(** ** An interval whose start is its end *)

Lemma map_seq_const {A} (f : nat → A) (c : A) (n : nat) :
  (∀ i, f i = c) → ∀ a, map f (seq a n) = replicate n c.
Proof.
  intros Hf. induction n as [|n IH]; intros a; simpl; [done|]. by rewrite Hf, IH.
Qed.

Lemma datetime_partitioning_empty_interval (t : timestamp) (W : Z) :
  0 < W →
  datetime_partitioning t t W = Some (replicate (S (Z.to_nat W)) (strptime t)).
Proof.
  intros HW. unfold datetime_partitioning.
  destruct (W =? 0) eqn:E; [lia|].
  rewrite Z.sub_diag, divide_and_round_zero by done.
  rewrite (map_seq_const _ (strptime t)) by (intros i; lia).
  by rewrite <- replicate_cons_app.
Qed.

Lemma partition_windows_empty_interval (t : timestamp) (n : nat) :
  partition_windows (datelist_of (replicate (S n) (strptime t))) 0 n
  = Some (replicate n (t, t)).
Proof.
  unfold datelist_of. rewrite (fmap_replicate strftime), strftime_strptime.
  destruct (partition_windows_spec (replicate (S n) t) n 0) as (ws & -> & Hlen & Hws).
  { rewrite length_replicate. lia. }
  f_equal. symmetry. apply replicate_as_Forall. split; [done|].
  apply Forall_lookup. intros i [s e] Hi.
  destruct (Hws i s e Hi) as [Hs He].
  apply lookup_replicate in Hs as [-> _]. apply lookup_replicate in He as [-> _]. done.
Qed.

Lemma run_jobs_silent (w : world) (cfg : config) (collection : string) (ids0 : registry)
    (windows : list (timestamp * timestamp)) :
  source_silent w →
  ∀ (num : nat) (sh : shared),
    (run_jobs w cfg collection ids0 num windows sh).1 = []
    ∧ is_error_shared (run_jobs w cfg collection ids0 num windows sh).2
      = is_error_shared sh ++ replicate (length windows) false.
Proof.
  intros Hs. induction windows as [|[s e] rest IH]; intros num sh; simpl.
  - by rewrite app_nil_r.
  - rewrite indexing_silent by done.
    specialize (IH (S num) {| storage := merge_ids ids0 (storage sh);
                              is_error_shared := is_error_shared sh ++ [false] |}).
    destruct (run_jobs _ _ _ _ _ _ _) as [events sh2]. simpl in *.
    destruct IH as [-> ->]. by rewrite <- app_assoc.
Qed.


Lemma source_silent_silent_world : source_silent silent_world.
Proof.
  intros url query name. simpl. unfold check_response.
  repeat case_bool_decide; done.
Qed.



(** ** The failure flag of a worker *)

(** C4 at a failing input: the sink raises on the batch of site documents
    and accepts the batches of the lists and items stages; [index_document]
    sets [is_error], the [elif self.is_error] of the same iteration clears
    it, and the flag the worker appends is [False]. *)
Theorem site_failure_not_reported :
  map (ws_index_documents (demo_world (sink_refusing SITE) (Some not_found) (λ _, None)))
      (submitted (demo_run (sink_refusing SITE)).1)
    = [SinkRaises; SinkResults [false]; SinkResults [false]]
  ∧ is_error_shared (demo_run (sink_refusing SITE)).2 = [false].
Proof. split; vm_compute; reflexivity. Qed.

(** The same for the lists stage, while a failure of the items stage, the
    last one, does reach the coordinator. *)
Example list_failure_not_reported :
  is_error_shared (demo_run (sink_refusing LIST)).2 = [false].
Proof. vm_compute. reflexivity. Qed.

Example item_failure_reported :
  is_error_shared (demo_run (sink_refusing ITEM)).2 = [true].
Proof. vm_compute. reflexivity. Qed.

(** ** Reasoning about computations *)

Lemma bind_Returned {A B} (m : M A) (k : A → M B) (s s' : fetch_state) (b : B) :
  bind m k s = Returned b s' ↔ ∃ a s1, m s = Returned a s1 ∧ k a s1 = Returned b s'.
Proof.
  unfold bind. split.
  - destruct (m s) as [a s1|e s1]; [eauto | done].
  - by intros (a & s1 & -> & ?).
Qed.

(** The [ITEMS] half of an iteration leaves [is_error] cleared for every
    key but [ITEMS]. *)
Lemma indexing_items_clears_flag (w : world) (self : fetch_index) (collection key : string)
    (sites : list pyval) (lists : lists_dict) (s s' : fetch_state)
    (r : list pyval * lists_dict) :
  key ≠ ITEMS →
  indexing_items w self collection key sites lists s = Returned r s' →
  is_error s' = false.
Proof.
  intros Hkey. unfold indexing_items, bind, get_is_error.
  rewrite bool_decide_eq_false_2 by done. simpl.
  destruct (is_error s) eqn:E.
  - unfold set_is_error, ret. by intros [= <- <-].
  - unfold ret. by intros [= <- <-].
Qed.

(** Whatever a stage other than the items stage did to [is_error], the
    iteration of its key ends with the flag cleared: a failure of the sites
    or lists stage never reaches the end of the loop. *)
Lemma indexing_key_clears_flag (w : world) (self : fetch_index) (collection key : string)
    (sites : list pyval) (lists : lists_dict) (s s' : fetch_state)
    (r : list pyval * lists_dict) :
  key ≠ ITEMS →
  indexing_key w self collection key sites lists s = Returned r s' →
  is_error s' = false.
Proof.
  intros Hkey H. unfold indexing_key in H.
  apply bind_Returned in H as (sites1 & s1 & _ & H).
  apply bind_Returned in H as (err & s2 & Herr & H).
  unfold get_is_error in Herr. injection Herr as <- <-.
  destruct (bool_decide (key = LISTS) && negb (is_error s1)).
  - apply bind_Returned in H as (sites2 & s3 & _ & H).
    apply bind_Returned in H as (responses & s4 & _ & H).
    apply bind_Returned in H as (lists2 & s5 & _ & H).
    by eapply indexing_items_clears_flag.
  - destruct (is_error s1) eqn:E.
    + unfold bind, set_is_error, ret in H. by injection H as <- <-.
    + by eapply indexing_items_clears_flag.
Qed.

(** So a worker whose last configured object type is not [items] reports
    [False] whatever happened. *)
Lemma indexing_loop_flag (w : world) (self : fetch_index) (collection : string)
    (keys : list string) :
  last keys ≠ Some ITEMS →
  ∀ sites lists s s',
    (keys = [] → is_error s = false) →
    indexing_loop w self collection keys sites lists s = Returned tt s' →
    is_error s' = false.
Proof.
  induction keys as [|key rest IH]; intros Hlast sites lists s s' Hs; simpl.
  - intros [= <-]. by apply Hs.
  - intros H. apply bind_Returned in H as ([sites1 lists1] & s1 & Hkey & H).
    destruct rest as [|key2 rest].
    + simpl in H. injection H as <-.
      eapply indexing_key_clears_flag; [|exact Hkey]. by intros ->.
    + by eapply (IH ltac:(done) sites1 lists1 s1 s').
Qed.

Lemma no_batch_ret {A} (a : A) : no_batch (ret a).
Proof. done. Qed.

Lemma no_batch_raise {A} (e : exn) : no_batch (@raise A e).
Proof. done. Qed.

Lemma no_batch_bind {A B} (m : M A) (k : A → M B) :
  no_batch m → (∀ a, no_batch (k a)) → no_batch (bind m k).
Proof.
  intros Hm Hk s. unfold bind. specialize (Hm s).
  destruct (m s) as [a s1|e s1]; simpl in *; [|done].
  by rewrite Hk.
Qed.

Lemma no_batch_modify_ids (f : registry → registry) : no_batch (modify_ids f).
Proof. done. Qed.

Lemma no_batch_set_is_error (b : bool) : no_batch (set_is_error b).
Proof. done. Qed.

Lemma no_batch_subscript (o : attrs) (k : string) : no_batch (subscript o k).
Proof. unfold subscript. by destruct (o !! k). Qed.

Lemma no_batch_need_str (v : pyval) : no_batch (need_str v).
Proof. by destruct v. Qed.

Lemma no_batch_doc_id (d : doc) : no_batch (doc_id d).
Proof. unfold doc_id. by destruct (d !! "id") as [[]|]. Qed.

Lemma no_batch_urljoin_host (w : world) (self : fetch_index) (url : pyval) :
  no_batch (urljoin_host w self url).
Proof. unfold urljoin_host. destruct url; simpl; try done; by destruct (_ : bool). Qed.

Lemma submitted_app (l1 l2 : list sink_call) :
  submitted (l1 ++ l2) = submitted l1 ++ submitted l2.
Proof. apply omap_app. Qed.

Lemma no_batch_workplace_add_permission (w : world) (user_name permission : string) :
  no_batch (workplace_add_permission w user_name permission).
Proof.
  intros s. unfold workplace_add_permission, bind, call_sink. simpl.
  destruct (ws_add_user_permissions w user_name permission); simpl;
    by rewrite submitted_app, app_nil_r.
Qed.

Lemma no_batch_add_member_users (w : world) (rows : gmap string string) (title : string)
    (users : list string) : no_batch (add_member_users w rows title users).
Proof.
  induction users as [|user rest IH]; simpl; [done|].
  apply no_batch_bind; [apply no_batch_workplace_add_permission | done].
Qed.

Lemma no_batch_expand_roles (w : world) (rows : gmap string string) (roles : list role) :
  ∀ groups, no_batch (expand_roles w rows roles groups).
Proof.
  induction roles as [|r rest IH]; intros groups; simpl; [done|].
  destruct (member_users r).
  - apply no_batch_bind; [apply no_batch_workplace_add_permission | done].
  - apply no_batch_bind; [apply no_batch_add_member_users | done].
  - done.
Qed.

Lemma no_batch_index_permissions (w : world) (self : fetch_index) (key : string)
    (site list_name list_url : pyval) (itemid : option string) :
  no_batch (index_permissions w self key site list_name list_url itemid).
Proof.
  unfold index_permissions. apply no_batch_bind.
  - unfold get_roles. repeat case_bool_decide; try done;
      (apply no_batch_bind; [apply no_batch_urljoin_host | done]).
  - intros [roles rel_url]. destruct (check_response roles "roles"); [|done].
    apply no_batch_expand_roles.
Qed.

(** ** Batches *)

Lemma concat_slices {A} (n : nat) (l : list A) (k : nat) :
  concat (map (λ i : nat, take n (drop (i * n) l)) (seq 0 k)) = take (k * n) l.
Proof.
  induction k as [|k IH]; [done|].
  rewrite seq_S, map_app, concat_app, IH. simpl.
  rewrite app_nil_r, take_take_drop. f_equal. lia.
Qed.

(** The slices of [document_list] cover the staged documents, in order. *)
Lemma concat_document_list (document : list doc) :
  concat (document_list document) = document.
Proof.
  unfold document_list. rewrite concat_slices. apply take_ge.
  unfold DOCUMENT_SIZE.
  pose proof (Nat.div_mod_eq (length document + 100 - 1) 100).
  pose proof (Nat.mod_upper_bound (length document + 100 - 1) 100).
  lia.
Qed.

(** ** Items with attachments *)

Section Attachment.
Variables (w : world) (self : fetch_index) (value0 value1 : pyval).
Variables (base_item_url : string) (schema_item : gmap string string).
Variables (entries : list attachment_entry) (num : nat) (o : attrs).
Variables (entry : attachment_entry) (file_relative_url : pyval) (more : list pyval).
Variable resp : file_response.
Hypothesis Hflag : truthy (attr_get o "Attachments") = true.
Hypothesis Hentry : entries !! num = Some entry.
Hypothesis Hfiles : attachment_files entry = file_relative_url :: more.
Hypothesis Hget :
  sp_get_file w (attachment_url w self value0 file_relative_url) "?" = Some resp.
Hypothesis Hfail : status_code resp ≠ codes_ok ∨ tika_extract w (content resp) = None.

(** The attachment branch returns, leaves the state alone, and adds at
    most an empty [body]. *)
Lemma item_body_failure (d : doc) (s : fetch_state) :
  ∃ d', item_body w self value0 (Some entries) num o d s = Returned d' s
        ∧ (d' = d ∨ d' = <["body" := DEmptyDict]> d).
Proof using Hflag Hentry Hfiles Hget Hfail.
  unfold item_body. rewrite Hflag, Hentry, Hfiles.
  fold (attachment_url w self value0 file_relative_url). rewrite Hget.
  destruct (status_code resp =? codes_ok) eqn:E.
  - destruct Hfail as [Hne | ->]; [lia|]. eauto.
  - eauto.
Qed.
End Attachment.

Lemma project_lookup_schema (schema : gmap string string) (o : attrs) (d : doc)
    (field attr : string) :
  schema !! field = Some attr → project schema o d !! field = Some (DVal (attr_get o attr)).
Proof.
  intros H. unfold project. apply lookup_union_Some_l.
  by rewrite lookup_fmap, H.
Qed.

Lemma project_lookup_other (schema : gmap string string) (o : attrs) (d : doc)
    (field : string) :
  schema !! field = None → project schema o d !! field = d !! field.
Proof.
  intros H. unfold project. apply lookup_union_r. by rewrite lookup_fmap, H.
Qed.



(** The whole crawl on the demo farm: the item document reaches the sink
    without a [body] when the download fails, with [{}] when Tika fails,
    and with the extracted text otherwise. *)
Example item_indexed_without_body :
  (λ d : doc, (d !! "type", d !! "body"))
    <$> last (concat (submitted
          (indexing (demo_world sink_accepts (Some server_error) (λ _, None))
             (demo_self all_objects) "c1" empty_registry
             {| storage := empty_registry; is_error_shared := [] |}).1))
  = Some (Some (DVal (PStr "item")), None).
Proof. vm_compute. reflexivity. Qed.

Example item_indexed_with_empty_body :
  (λ d : doc, (d !! "type", d !! "body"))
    <$> last (concat (submitted
          (indexing (demo_world sink_accepts (Some garbled) (λ _, None))
             (demo_self all_objects) "c1" empty_registry
             {| storage := empty_registry; is_error_shared := [] |}).1))
  = Some (Some (DVal (PStr "item")), Some DEmptyDict).
Proof. vm_compute. reflexivity. Qed.

Example item_indexed_with_text :
  (λ d : doc, (d !! "type", d !! "body"))
    <$> last (concat (submitted
          (indexing (demo_world sink_accepts (Some garbled) (λ _, Some "text"))
             (demo_self all_objects) "c1" empty_registry
             {| storage := empty_registry; is_error_shared := [] |}).1))
  = Some (Some (DVal (PStr "item")), Some (DVal (PStr "text"))).
Proof. vm_compute. reflexivity. Qed.

(** ** The accumulator of [index_lists] *)

Lemma submitted_index_documents (chunks : list (list doc)) :
  submitted (map IndexDocuments chunks) = chunks.
Proof. induction chunks as [|c rest IH]; simpl; [done|]. unfold submitted in *. simpl. by rewrite IH. Qed.

Lemma index_chunks_spec (w : world) (chunks : list (list doc)) :
  ∀ s, ∃ s', index_chunks w chunks s = Returned tt s'
             ∧ calls s' = calls s ++ map IndexDocuments (attempted w chunks).
Proof.
  induction chunks as [|chunk rest IH]; intros s; simpl.
  - exists s. by rewrite app_nil_r.
  - unfold bind, call_sink. simpl.
    destruct (ws_index_documents w chunk).
    + eexists. split; [reflexivity|]. done.
    + destruct (IH {| is_error := is_error s; ids := ids s;
                      calls := calls s ++ [IndexDocuments chunk] |}) as (s' & -> & Hc).
      exists s'. split; [done|]. rewrite Hc. simpl. by rewrite <- app_assoc.
Qed.

(** [index_document] always returns, and what it submits are the batches of
    its argument, up to the first the sink raises on. *)
Lemma index_document_spec (w : world) (document : list doc) (s : fetch_state) :
  ∃ s', index_document w document s = Returned tt s'
        ∧ submitted (calls s')
          = submitted (calls s) ++ attempted w (document_list document).
Proof.
  destruct document as [|d rest].
  - eexists. split; [reflexivity|]. simpl. by rewrite app_nil_r.
  - destruct (index_chunks_spec w (document_list (d :: rest)) s) as (s' & H & Hc).
    exists s'. split; [exact H|].
    by rewrite Hc, submitted_app, submitted_index_documents.
Qed.

Lemma no_batch_list_document (w : world) (self : fetch_index) (site : pyval)
    (base : string) (schema_list : gmap string string) (o : attrs) :
  no_batch (list_document w self site base schema_list o).
Proof.
  unfold list_document.
  apply no_batch_bind.
  { destruct (enable_document_permission (data self)); [|done].
    apply no_batch_bind; [apply no_batch_subscript|]. intros title.
    apply no_batch_bind; [apply no_batch_subscript|]. intros parent.
    apply no_batch_bind; [apply no_batch_index_permissions | done]. }
  intros d.
  apply no_batch_bind; [apply no_batch_subscript|]. intros title.
  apply no_batch_bind; [apply no_batch_need_str|]. intros name.
  apply no_batch_bind; [apply no_batch_doc_id|]. intros id.
  apply no_batch_bind; [apply no_batch_modify_ids | done].
Qed.

Lemma list_document_Returned (w : world) (self : fetch_index) (site : pyval)
    (schema_list : gmap string string) (o : attrs) (s s' : fetch_state) (d : doc) :
  list_document w self site (base_list_url w self site) schema_list o s = Returned d s' →
  list_doc_of w self site d o.
Proof.
  unfold list_document. intros H.
  apply bind_Returned in H as (d0 & s0 & _ & H).
  apply bind_Returned in H as (title & s1 & Ht & H).
  apply bind_Returned in H as (name & s2 & Hn & H).
  apply bind_Returned in H as (id & s3 & _ & H).
  apply bind_Returned in H as (? & s4 & _ & H).
  injection H as <- _.
  unfold subscript in Ht. destruct (o !! "Title") as [v|] eqn:E; [|done].
  injection Ht as -> _. destruct title; try done. injection Hn as -> _.
  exists name. split; [done|]. by rewrite lookup_insert_eq.
Qed.

Lemma index_lists_docs_spec (w : world) (self : fetch_index) (site : pyval)
    (schema_list : gmap string string) (response_data : list attrs) :
  ∀ (document : list doc) (s : fetch_state),
    submitted (calls (state_of
      (index_lists_docs w self site (base_list_url w self site) schema_list
         response_data document s))) = submitted (calls s)
    ∧ ∀ docs s',
        index_lists_docs w self site (base_list_url w self site) schema_list
          response_data document s = Returned docs s' →
        ∃ D, docs = document ++ D ∧ Forall2 (list_doc_of w self site) D response_data.
Proof.
  induction response_data as [|o rest IH]; intros document s; simpl.
  - split; [done|]. intros docs s' [= <- <-]. exists []. by rewrite app_nil_r.
  - unfold bind.
    pose proof (no_batch_list_document w self site (base_list_url w self site)
                  schema_list o s) as Hnb.
    destruct (list_document _ _ _ _ _ _ _) as [d s1|e s1] eqn:Hd; simpl in Hnb.
    + destruct (IH (document ++ [d]) s1) as [Hsub Hret]. split; [by rewrite Hsub|].
      intros docs s' Hrun. destruct (Hret docs s' Hrun) as (D & -> & HD).
      exists (d :: D). split; [by rewrite <- app_assoc|].
      constructor; [|done]. by eapply list_document_Returned.
    + split; [done|]. done.
Qed.

Lemma producing_sites_cons (w : world) (self : fetch_index) (site : pyval)
    (rest : list pyval) :
  producing_sites w self (site :: rest)
  = match lists_of_site w self site with
    | Some (o :: os) => (site, o :: os) :: producing_sites w self rest
    | _ => producing_sites w self rest
    end.
Proof.
  unfold producing_sites at 1. simpl.
  by destruct (lists_of_site w self site) as [[|o os]|].
Qed.

(** The batches of the successive calls of [index_document] when the
    accumulator starts as [document] and the producing sites contribute the
    document lists [Ds]. *)
Lemma batches_cons (w : world) (document D : list doc) (Ds : list (list doc)) :
  concat (map (λ k : nat, attempted w (document_list (document ++ concat (take (S k) (D :: Ds)))))
              (seq 0 (S (length Ds))))
  = attempted w (document_list (document ++ D))
    ++ concat (map (λ k : nat, attempted w
                                 (document_list ((document ++ D) ++ concat (take (S k) Ds))))
                   (seq 0 (length Ds))).
Proof.
  simpl. rewrite app_nil_r. f_equal. f_equal.
  rewrite <- fmap_S_seq, <- list_fmap_compose.
  apply list_fmap_ext. intros i k _. simpl. by rewrite app_assoc.
Qed.

Lemma index_lists_loop_skip (w : world) (self : fetch_index) (site : pyval)
    (rest : list pyval) (responses : list (list attrs)) (document : list doc)
    (s : fetch_state) :
  list_truthy (lists_of_site w self site) = false →
  index_lists_loop w self true (site :: rest) responses document s
  = index_lists_loop w self true rest responses document s.
Proof.
  simpl. fold (lists_of_site w self site).
  by destruct (lists_of_site w self site) as [[|o os]|].
Qed.

Lemma index_lists_loop_step (w : world) (self : fetch_index) (site : pyval)
    (rest : list pyval) (responses : list (list attrs)) (document : list doc)
    (s : fetch_state) (o : attrs) (os : list attrs) :
  lists_of_site w self site = Some (o :: os) →
  index_lists_loop w self true (site :: rest) responses document s
  = match index_lists_docs w self site (base_list_url w self site)
            (get_schema_fields w self LISTS) (o :: os) document
            {| is_error := is_error s;
               ids := {| reg_sites := reg_sites (ids s);
                         reg_lists := <[pykey site := ∅]> (reg_lists (ids s));
                         reg_list_items := reg_list_items (ids s) |};
               calls := calls s |} with
    | Returned docs s1 =>
        match index_document w docs s1 with
        | Returned _ s2 =>
            index_lists_loop w self true rest (responses ++ [o :: os]) docs s2
        | Raised e s2 => Raised e s2
        end
    | Raised e s1 => Raised e s1
    end.
Proof.
  intros H. simpl. fold (lists_of_site w self site). by rewrite H.
Qed.

Lemma index_lists_loop_spec (w : world) (self : fetch_index) (sites : list pyval) :
  ∀ (responses : list (list attrs)) (document : list doc) (s : fetch_state),
  ∃ Ds : list (list doc),
    Forall2 (site_docs w self) Ds (take (length Ds) (producing_sites w self sites))
    ∧ submitted (calls (state_of (index_lists_loop w self true sites responses document s)))
      = submitted (calls s)
        ++ concat (map (λ k : nat,
                          attempted w (document_list (document ++ concat (take (S k) Ds))))
                       (seq 0 (length Ds)))
    ∧ ∀ r s', index_lists_loop w self true sites responses document s = Returned r s' →
        length Ds = length (producing_sites w self sites)
        ∧ r = responses ++ map snd (producing_sites w self sites).
Proof.
  induction sites as [|site rest IH]; intros responses document s.
  - exists []. simpl. split; [constructor|]. split; [by rewrite app_nil_r|].
    intros r s' [= <- <-]. by rewrite app_nil_r.
  - rewrite producing_sites_cons.
    destruct (lists_of_site w self site) as [[|o os]|] eqn:Hsite;
      try (rewrite index_lists_loop_skip by (by rewrite Hsite); apply IH).
    rewrite (index_lists_loop_step w self site rest responses document s o os Hsite).
    match goal with
    | |- context [index_lists_docs w self site ?b ?sc ?rd document ?s0] =>
        destruct (index_lists_docs_spec w self site sc rd document s0) as [Hsub Hret];
        destruct (index_lists_docs w self site b sc rd document s0)
          as [docs s1|e s1] eqn:Hdocs
    end.
    + destruct (Hret docs s1 eq_refl) as (D & -> & HD). simpl in Hsub.
      destruct (index_document_spec w (document ++ D) s1) as (s2 & -> & Hs2).
      destruct (IH (responses ++ [o :: os]) (document ++ D) s2) as (Ds & H1 & H2 & H3).
      exists (D :: Ds). split; [|split].
      * simpl. constructor; [exact HD | exact H1].
      * rewrite H2, Hs2, Hsub. simpl length. rewrite batches_cons.
        by rewrite <- !app_assoc.
      * intros r s' Hr. destruct (H3 r s' Hr) as [Hl ->].
        simpl. split; [by rewrite Hl | by rewrite <- app_assoc].
    + exists []. simpl in *. split; [constructor|]. split; [by rewrite app_nil_r|]. done.
Qed.

Lemma attempted_all (w : world) (chunks : list (list doc)) :
  (∀ chunk, ws_index_documents w chunk ≠ SinkRaises) → attempted w chunks = chunks.
Proof.
  intros Hok. induction chunks as [|c rest IH]; simpl; [done|].
  specialize (Hok c). destruct (ws_index_documents w c); [done|]. by rewrite IH.
Qed.

(** C10: in [index_lists] with [index=True] the list [document] is created
    once, before the loop over the sites. However the call ends, there are
    document lists [Ds], one for each of the first producing sites that were
    processed and holding one document per list of that site, such that the
    batches sent to the sink are, call after call, those of
    [Ds_1 ++ ... ++ Ds_k]: the batch of the k-th producing site repeats the
    documents of all the producing sites before it. When the call returns,
    every producing site has its [Ds_k]; and when the sink raises on no
    batch, the documents it received are exactly the concatenation of these
    growing prefixes, so the documents of a site are sent once for it and
    once more for each later producing site. *)
Theorem index_lists_resubmits_earlier_sites (w : world) (self : fetch_index)
    (sites : list pyval) (s : fetch_state) :
  ∃ Ds : list (list doc),
    Forall2 (site_docs w self) Ds (take (length Ds) (producing_sites w self sites))
    ∧ submitted (calls (state_of (index_lists w self sites true s)))
      = submitted (calls s)
        ++ concat (map (λ k : nat, attempted w (document_list (concat (take (S k) Ds))))
                       (seq 0 (length Ds)))
    ∧ (∀ r s', index_lists w self sites true s = Returned r s' →
         length Ds = length (producing_sites w self sites)
         ∧ r = map snd (producing_sites w self sites))
    ∧ ((∀ chunk, ws_index_documents w chunk ≠ SinkRaises) →
       concat (drop (length (submitted (calls s)))
                    (submitted (calls (state_of (index_lists w self sites true s)))))
       = concat (map (λ k : nat, concat (take (S k) Ds)) (seq 0 (length Ds)))).
Proof.
  assert (index_lists w self sites true s = index_lists_loop w self true sites [] [] s)
    as -> by (by destruct sites).
  destruct (index_lists_loop_spec w self sites [] [] s) as (Ds & H1 & H2 & H3).
  exists Ds. split; [exact H1|]. split; [exact H2|]. split; [exact H3|].
  intros Hok. rewrite H2, drop_app_length. clear H1 H2 H3.
  induction (seq 0 (length Ds)) as [|k ks IHk]; simpl; [done|].
  rewrite concat_app, attempted_all, concat_document_list by done.
  f_equal. exact IHk.
Qed.

(** Two sites with one list each: the sink receives the document of the
    first site's list, then that document again together with the one of the
    second site's list. *)
Example index_lists_two_sites :
  map (map (λ d : doc, d !! "id"))
      (submitted (calls (state_of
         (index_lists two_sites_world (demo_self all_objects) two_sites true idle_state))))
  = [[Some (DVal (PStr "l1"))];
     [Some (DVal (PStr "l1")); Some (DVal (PStr "l2"))]].
Proof. vm_compute. reflexivity. Qed.

Lemma index_lists_resubmits_earlier_sites_witness :
  (∀ chunk, ws_index_documents two_sites_world chunk ≠ SinkRaises)
  ∧ ∃ Ds : list (list doc),
      length Ds = 2%nat
      ∧ concat (submitted (calls (state_of
          (index_lists two_sites_world (demo_self all_objects) two_sites true idle_state))))
        = concat (map (λ k : nat, concat (take (S k) Ds)) (seq 0 (length Ds))).
Proof.
  assert (∀ chunk, ws_index_documents two_sites_world chunk ≠ SinkRaises) as Hok
    by (intros chunk; discriminate).
  split; [exact Hok|].
  destruct (index_lists_resubmits_earlier_sites two_sites_world (demo_self all_objects)
              two_sites idle_state) as (Ds & _ & _ & H3 & H4).
  assert (∃ r s', index_lists two_sites_world (demo_self all_objects) two_sites true
                    idle_state = Returned r s') as (r & s' & E)
    by (eexists _, _; vm_compute; reflexivity).
  destruct (H3 r s' E) as [Hl _].
  exists Ds. split; [rewrite Hl; vm_compute; reflexivity|].
  exact (H4 Hok).
Defined.

(** * Further properties of the code *)

(** ** Batching in [index_document] *)

Lemma document_list_length (document : list doc) :
  length (document_list document)
  = ((length document + DOCUMENT_SIZE - 1) `div` DOCUMENT_SIZE)%nat.
Proof. unfold document_list. by rewrite length_map, length_seq. Qed.

(** X1: the batches [index_document] cuts are the staged documents in
    order, none is empty, none holds more than [DOCUMENT_SIZE] documents, and
    there are as many as [len(document) / DOCUMENT_SIZE] rounded up (none for
    an empty list). *)
Theorem document_list_partitions (document : list doc) :
  concat (document_list document) = document
  ∧ Forall (λ chunk, (0 < length chunk ≤ DOCUMENT_SIZE)%nat) (document_list document)
  ∧ (length (document_list document) * DOCUMENT_SIZE < length document + DOCUMENT_SIZE)%nat
  ∧ (length document ≤ length (document_list document) * DOCUMENT_SIZE)%nat.
Proof.
  pose proof (Nat.div_mod_eq (length document + DOCUMENT_SIZE - 1) DOCUMENT_SIZE) as Hdm.
  pose proof (Nat.mod_upper_bound (length document + DOCUMENT_SIZE - 1) DOCUMENT_SIZE
                ltac:(done)) as Hmod.
  split; [apply concat_document_list|]. split; [|rewrite document_list_length;
    unfold DOCUMENT_SIZE in *; lia].
  unfold document_list. apply Forall_fmap, Forall_forall. intros i Hi.
  apply elem_of_seq in Hi. simpl.
  rewrite length_take, length_drop. unfold DOCUMENT_SIZE in *. lia.
Qed.

Lemma attempted_prefix (w : world) (chunks : list (list doc)) :
  attempted w chunks `prefix_of` chunks.
Proof.
  induction chunks as [|c rest IH]; simpl; [done|].
  destruct (ws_index_documents w c); [|by apply prefix_cons].
  apply prefix_cons, prefix_nil.
Qed.

Lemma attempted_raise_last (w : world) (chunks : list (list doc)) (i : nat)
    (c : list doc) :
  attempted w chunks !! i = Some c → sink_raises w c = true →
  S i = length (attempted w chunks).
Proof.
  revert i. induction chunks as [|c0 rest IH]; intros i; simpl; [done|].
  unfold sink_raises in *. destruct i as [|i]; simpl.
  - intros [= ->] Hr. by destruct (ws_index_documents w c).
  - destruct (ws_index_documents w c0); [done|].
    intros Hi Hr. f_equal. by apply IH.
Qed.

Lemma index_chunks_outcome (w : world) (chunks : list (list doc)) :
  ∀ s, ∃ s', index_chunks w chunks s = Returned tt s'
             ∧ ids s' = ids s
             ∧ calls s' = calls s ++ map IndexDocuments (attempted w chunks)
             ∧ is_error s' = is_error s || existsb (sink_raises w) chunks.
Proof.
  induction chunks as [|chunk rest IH]; intros s; simpl.
  - exists s. by rewrite app_nil_r, orb_false_r.
  - unfold bind, call_sink, sink_raises at 1. simpl.
    destruct (ws_index_documents w chunk); simpl.
    + eexists. split; [reflexivity|]. simpl. by rewrite orb_true_r.
    + destruct (IH {| is_error := is_error s; ids := ids s;
                      calls := calls s ++ [IndexDocuments chunk] |})
        as (s' & -> & Hi & Hc & He).
      exists s'. split; [done|]. split; [done|]. split; [|done].
      rewrite Hc. simpl. by rewrite <- app_assoc.
Qed.

(** X2: [index_document] never raises and never touches [ids]. It hands the
    batches to the sink in order and stops at the first one the sink raises
    on, so a raising batch is the last one sent. Afterwards [is_error] is set
    if it was set before, if some batch raises, or if the list was empty
    (the log line then reads a variable that was never assigned); it is never
    cleared. *)
Theorem index_document_outcome (w : world) (document : list doc) (s : fetch_state) :
  ∃ s', index_document w document s = Returned tt s'
        ∧ ids s' = ids s
        ∧ calls s' = calls s ++ map IndexDocuments (attempted w (document_list document))
        ∧ attempted w (document_list document) `prefix_of` document_list document
        ∧ (∀ i c, attempted w (document_list document) !! i = Some c →
             sink_raises w c = true →
             S i = length (attempted w (document_list document)))
        ∧ is_error s'
          = is_error s || bool_decide (document = [])
            || existsb (sink_raises w) (document_list document).
Proof.
  destruct document as [|d rest].
  - eexists. split; [reflexivity|]. simpl. rewrite app_nil_r, orb_true_r.
    repeat split; try done; by intros [|i] c Hi.
  - destruct (index_chunks_outcome w (document_list (d :: rest)) s)
      as (s' & H & Hi & Hc & He).
    exists s'. split; [exact H|]. split; [done|]. split; [done|].
    split; [apply attempted_prefix|]. split; [apply attempted_raise_last|].
    rewrite He. by rewrite bool_decide_eq_false_2, orb_false_r.
Qed.

(** ** Partitions of equal length *)

Lemma divide_and_round_nearest (a b : Z) :
  0 < b → 2 * Z.abs (divide_and_round a b * b - a) ≤ b.
Proof.
  intros Hb. unfold divide_and_round.
  pose proof (Z.div_mod a b ltac:(lia)) as Hdm.
  pose proof (Z.mod_pos_bound a b Hb) as Hr.
  destruct (0 <? b) eqn:Hpos; [|lia].
  destruct (b <? 2 * (a `mod` b)) eqn:Hgt; simpl; [nia|].
  destruct (2 * (a `mod` b) =? b) eqn:Heq; simpl; [|nia].
  destruct ((a `div` b) `mod` 2 =? 1); nia.
Qed.

(** X3: the generator divides the range in equal parts up to rounding:
    there is one step such that each of the first [W - 1] parts is exactly
    one step long, and the length of the last part differs from the step by
    at most [W / 2] microseconds. *)
Theorem datetime_partitioning_equal_parts (start_time end_time : timestamp) (W : Z)
    (bs : list datetime) :
  0 < W →
  datetime_partitioning start_time end_time W = Some bs →
  ∃ step : Z,
    (∀ (i : nat) x y, (S i < Z.to_nat W)%nat →
       bs !! i = Some x → bs !! S i = Some y → y - x = step)
    ∧ (∀ x y, bs !! (Z.to_nat W - 1)%nat = Some x → bs !! Z.to_nat W = Some y →
         2 * Z.abs ((y - x) - step) ≤ W).
Proof.
  intros HW Hbs.
  pose proof (datetime_partitioning_lookup _ _ _ _ Hbs) as Hlk.
  pose proof (divide_and_round_nearest (strptime end_time - strptime start_time) W HW)
    as Hnear.
  exists (divide_and_round (strptime end_time - strptime start_time) W). split.
  - intros i x y Hi. rewrite !Hlk, !decide_True by lia. intros [= <-] [= <-]. lia.
  - intros x y. rewrite !Hlk. rewrite decide_True by lia. rewrite decide_False by lia.
    rewrite decide_True by done. intros [= <-] [= <-].
    replace (Z.of_nat (Z.to_nat W - 1)) with (W - 1) by lia.
    set (d := divide_and_round _ _) in *.
    replace (strptime end_time - (strptime start_time + d * (W - 1)) - d)
      with (- (d * W - (strptime end_time - strptime start_time))) by lia.
    by rewrite Z.abs_opp.
Qed.

Lemma datetime_partitioning_equal_parts_witness :
  (0 : Z) < 3
  ∧ datetime_partitioning 0 10 3 = Some [0; 3333333; 6666666; 10000000]
  ∧ ∃ step : Z,
      (∀ x y, [0; 3333333; 6666666; 10000000] !! 1%nat = Some x →
              [0; 3333333; 6666666; 10000000] !! 2%nat = Some y → y - x = step)
      ∧ step = 3333333.
Proof.
  split; [lia|]. split; [reflexivity|].
  destruct (datetime_partitioning_equal_parts 0 10 3 [0; 3333333; 6666666; 10000000]
              ltac:(lia) eq_refl) as (step & H1 & _).
  exists step. split.
  - intros x y. apply (H1 1%nat). simpl. lia.
  - symmetry. apply (H1 0%nat 0 3333333); [simpl; lia | reflexivity | reflexivity].
Defined.

(** ** The windows handed to the workers *)

(** X4: the windows [start] hands to its workers tile the interval: there
    are [W] of them, the first starts at the start of the interval, the
    last ends at its end, and each window ends where the next one starts. *)
Theorem partition_windows_tile (start_time end_time : timestamp) (W : Z) :
  0 < W →
  ∃ bs windows,
    datetime_partitioning start_time end_time W = Some bs
    ∧ partition_windows (datelist_of bs) 0 (Z.to_nat W) = Some windows
    ∧ length windows = Z.to_nat W
    ∧ fst <$> head windows = Some start_time
    ∧ snd <$> last windows = Some end_time
    ∧ ∀ (i : nat) a b, windows !! i = Some a → windows !! S i = Some b → a.2 = b.1.
Proof.
  intros HW.
  destruct (datetime_partitioning start_time end_time W) as [bs|] eqn:Hbs;
    [| unfold datetime_partitioning in Hbs; destruct (W =? 0) eqn:E; [lia | done]].
  pose proof (datetime_partitioning_lookup _ _ _ _ Hbs) as Hlk.
  pose proof (datetime_partitioning_length _ _ _ _ Hbs) as Hlen.
  destruct (partition_windows_spec (datelist_of bs) (Z.to_nat W) 0)
    as (windows & Hws & Hwl & Hwi).
  { unfold datelist_of. rewrite length_map, Hlen. lia. }
  exists bs, windows. split; [done|]. split; [done|]. split; [done|].
  assert (∀ i, datelist_of bs !! i = strftime <$> bs !! i) as Hdl
    by (intros i; unfold datelist_of; apply list_lookup_fmap).
  split; [|split].
  - rewrite head_lookup.
    destruct (lookup_lt_is_Some_2 windows 0 ltac:(lia)) as [[s e] H0].
    rewrite H0. simpl. destruct (Hwi _ _ _ H0) as [Hs _]. simpl in Hs.
    rewrite Hdl, Hlk, decide_True in Hs by lia. simpl in Hs.
    injection Hs as <-. f_equal. rewrite Z.mul_0_r, Z.add_0_r. apply strftime_strptime.
  - rewrite last_lookup.
    destruct (lookup_lt_is_Some_2 windows (pred (length windows)) ltac:(lia)) as [[s e] H0].
    rewrite H0. simpl. destruct (Hwi _ _ _ H0) as [_ He]. simpl in He.
    replace (S (pred (length windows))) with (Z.to_nat W) in He by lia.
    rewrite Hdl, Hlk, decide_False in He by lia. rewrite decide_True in He by done.
    simpl in He. injection He as <-. f_equal. apply strftime_strptime.
  - intros i [s1 e1] [s2 e2] H1 H2. simpl.
    destruct (Hwi _ _ _ H1) as [_ He]. destruct (Hwi _ _ _ H2) as [Hs _].
    simpl in *. congruence.
Qed.

Lemma partition_windows_tile_witness :
  (0 : Z) < 4
  ∧ ∃ bs windows,
      datetime_partitioning 0 28800 4 = Some bs
      ∧ partition_windows (datelist_of bs) 0 4 = Some windows
      ∧ windows = [(0, 7200); (7200, 14400); (14400, 21600); (21600, 28800)].
Proof.
  split; [lia|].
  destruct (partition_windows_tile 0 28800 4 ltac:(lia)) as (bs & ws & H1 & H2 & _).
  exists bs, ws. split; [exact H1|]. split; [exact H2|].
  injection H1 as <-. injection H2 as <-. reflexivity.
Defined.

(** ** [remove_all_permissions] *)

Lemma remove_permissions_shape (w : world) (l : list (string * list string)) :
  ∃ n : nat,
    (n ≤ length l)%nat
    ∧ remove_permissions w l
      = map (λ p, RemoveUserPermissions p.1 p.2) (take n l)
    ∧ (∀ (i : nat) p, l !! i = Some p → (i < n)%nat →
         ws_remove_user_permissions w p.1 p.2 = false → S i = n)
    ∧ (Forall (λ p, ws_remove_user_permissions w p.1 p.2 = true) l → n = length l).
Proof.
  induction l as [|[user perms] rest (n & Hn & Heq & Hlast & Hall)]; simpl.
  - exists 0%nat. repeat split; try done; intros i p Hi; lia.
  - destruct (ws_remove_user_permissions w user perms) eqn:E.
    + exists (S n). split; [lia|]. split; [by rewrite Heq|]. split.
      * intros [|i] p; simpl.
        -- intros [= <-] _. simpl. congruence.
        -- intros Hi Hlt Hf. f_equal. apply (Hlast i p); [done | lia | done].
      * intros Hf. apply Forall_cons in Hf as [_ Hf]. by rewrite Hall.
    + exists 1%nat. split; [lia|]. split; [simpl; by rewrite ?take_0|]. split.
      * intros [|i] p; simpl; [done | lia].
      * intros Hf. apply Forall_cons in Hf as [Hf _]. simpl in Hf. congruence.
Qed.

(** X5: [remove_all_permissions] asks for the permission list once and then
    removes the listed permissions in the order listed, each with the user
    and permissions the list gave for it, stopping after the first removal
    that raises: the removals are a prefix of the list, a removal that raised
    is the last one, all of them are made when none raises, and nothing is
    removed when the list request raised or answered nothing. *)
Theorem remove_all_permissions_shape (w : world) :
  ∃ n : nat,
    (n ≤ length (listed_permissions w))%nat
    ∧ remove_all_permissions w
      = ListPermissions
        :: map (λ p, RemoveUserPermissions p.1 p.2) (take n (listed_permissions w))
    ∧ (∀ (i : nat) p, listed_permissions w !! i = Some p → (i < n)%nat →
         ws_remove_user_permissions w p.1 p.2 = false → S i = n)
    ∧ (Forall (λ p, ws_remove_user_permissions w p.1 p.2 = true) (listed_permissions w) →
       n = length (listed_permissions w)).
Proof.
  unfold remove_all_permissions, listed_permissions.
  destruct (ws_list_permissions w) as [[l|]|].
  - destruct (remove_permissions_shape w l) as (n & Hn & Heq & Hlast & Hall).
    exists n. by rewrite Heq.
  - exists 0%nat. repeat split; try done; intros i p Hi; lia.
  - exists 0%nat. repeat split; try done; intros i p Hi; lia.
Qed.

(** ** Paths derived again by queries that index nothing *)

Lemma index_sites_unindexed (w : world) (self : fetch_index) (collection : string)
    (s : fetch_state) :
  index_sites w self collection false s
  = Returned (match sites_of_collection w self collection with
              | Some (o :: os) => o :: os
              | _ => []
              end) s.
Proof.
  unfold index_sites. fold (sites_of_collection w self collection).
  by destruct (sites_of_collection w self collection) as [[|o os]|].
Qed.

Lemma index_lists_loop_unindexed (w : world) (self : fetch_index) (sites : list pyval) :
  ∀ responses document s,
    index_lists_loop w self false sites responses document s
    = Returned (responses ++ map snd (producing_sites w self sites)) s.
Proof.
  induction sites as [|site rest IH]; intros responses document s.
  - simpl. by rewrite app_nil_r.
  - rewrite producing_sites_cons. simpl. fold (lists_of_site w self site).
    destruct (lists_of_site w self site) as [[|o os]|]; rewrite IH; try done.
    simpl. by rewrite <- app_assoc.
Qed.

Lemma index_lists_unindexed (w : world) (self : fetch_index) (sites : list pyval)
    (s : fetch_state) :
  index_lists w self sites false s = Returned (map snd (producing_sites w self sites)) s.
Proof.
  destruct sites as [|site rest]; [done|].
  unfold index_lists. by rewrite index_lists_loop_unindexed.
Qed.

(** X6: the paths derived again when a stage was skipped come from queries
    that index nothing: [get_site_paths] and [get_lists_paths] called without
    response data never raise, make no sink call, and leave [ids] and
    [is_error] as they were. The site paths are the [ServerRelativeUrl] of
    the objects the sites query answers (none when it fails); the lists
    dictionary is built from the objects of the sites that answer lists. *)
Theorem paths_rederived_without_effect (w : world) (self : fetch_index)
    (collection : string) (sites : list pyval) (s : fetch_state) :
  get_site_paths w self collection [] s
  = Returned (map (λ result, attr_get result "ServerRelativeUrl")
                  (match sites_of_collection w self collection with
                   | Some (o :: os) => o :: os
                   | _ => []
                   end)) s
  ∧ (sites ≠ [] →
     get_lists_paths w self collection sites [] s
     = Returned (lists_from (concat (map snd (producing_sites w self sites)))) s)
  ∧ ∃ lists, get_lists_paths w self collection [] [] s = Returned lists s.
Proof.
  assert (get_site_paths w self collection [] s
          = Returned (map (λ result, attr_get result "ServerRelativeUrl")
                        (match sites_of_collection w self collection with
                         | Some (o :: os) => o :: os
                         | _ => []
                         end)) s) as Hsp.
  { unfold get_site_paths, bind. by rewrite index_sites_unindexed. }
  split; [exact Hsp|]. split.
  - intros Hne. unfold get_lists_paths, bind.
    destruct sites as [|site rest]; [done|].
    unfold ret at 1. rewrite index_lists_unindexed.
    unfold lists_from. by destruct (producing_sites w self (site :: rest)).
  - unfold get_lists_paths, bind. rewrite Hsp, index_lists_unindexed.
    destruct (producing_sites w self _); eauto.
Qed.

(** ** Permissions that cannot be fetched *)

Lemma urljoin_host_state (w : world) (self : fetch_index) (url : pyval)
    (s s' : fetch_state) (r : string) :
  urljoin_host w self url s = Returned r s' → s' = s.
Proof.
  unfold urljoin_host, ret, raise.
  destruct url; simpl; try (by intros [= _ <-]); destruct (_ : bool); by intros [= _ <-].
Qed.

Lemma get_roles_state (w : world) (self : fetch_index) (key : string)
    (site list_url list_name : pyval) (itemid : option string)
    (s s' : fetch_state) (r : response role * string) :
  get_roles w self key site list_url list_name itemid s = Returned r s' → s' = s.
Proof.
  unfold get_roles.
  destruct (bool_decide (key = SITES)); [|destruct (bool_decide (key = LISTS));
    [|destruct (bool_decide (key = ITEMS)); [|done]]];
    (intros Hr; apply bind_Returned in Hr as (u & s1 & Hu & Hr);
     apply urljoin_host_state in Hu as ->; by injection Hr as _ <-).
Qed.

(** X7: when the role assignments of an object cannot be fetched (the
    response is falsy or does not parse) or hold no entry, [index_permissions]
    returns an empty group list, pushes nothing and leaves [is_error] alone:
    the object is indexed with empty [_allow_permissions] and the failure is
    only logged. A parsed answer without [results] makes it raise a
    [TypeError]. *)
Theorem index_permissions_without_roles (w : world) (self : fetch_index) (key : string)
    (site list_name list_url : pyval) (itemid : option string)
    (roles : response role) (rel_url : string) (s s1 : fetch_state) :
  get_roles w self key site list_url list_name itemid s = Returned (roles, rel_url) s1 →
  (roles = Falsy ∨ roles = BadJson ∨ roles = Results (Some []) →
     index_permissions w self key site list_name list_url itemid s = Returned [] s)
  ∧ (roles = Results None →
     index_permissions w self key site list_name list_url itemid s = Raised TypeError s).
Proof.
  intros Hroles. pose proof (get_roles_state _ _ _ _ _ _ _ _ _ _ Hroles) as ->.
  unfold index_permissions, bind. rewrite Hroles. split.
  - intros [-> | [-> | ->]]; reflexivity.
  - intros ->. reflexivity.
Qed.

Lemma index_permissions_without_roles_witness :
  get_roles denied_world (demo_self all_objects) SITES (PStr "/sites/c1/s") PNone PNone None
    idle_state = Returned (Falsy, "http://sp/sites/c1/s") idle_state
  ∧ index_permissions denied_world (demo_self all_objects) SITES (PStr "/sites/c1/s")
      PNone PNone None idle_state = Returned [] idle_state.
Proof.
  assert (get_roles denied_world (demo_self all_objects) SITES (PStr "/sites/c1/s")
            PNone PNone None idle_state
          = Returned (Falsy, "http://sp/sites/c1/s") idle_state) as H by reflexivity.
  split; [exact H|].
  destruct (index_permissions_without_roles denied_world (demo_self all_objects) SITES
              (PStr "/sites/c1/s") PNone PNone None Falsy "http://sp/sites/c1/s"
              idle_state idle_state H) as [H1 _].
  apply H1. by left.
Defined.

(** ** What the schema projector keeps *)

(** X8: [get_schema_fields] never invents a mapping: every entry of its
    result other than [id] is an entry of the adapter's default schema for
    the object type. With a non-empty include-list it keeps every default
    entry whose source attribute is listed, with only a non-empty
    exclude-list every default entry whose source attribute is not listed;
    and for an object type without field configuration the default schema is
    returned as it is, without the [id] entry being written. *)
Theorem get_schema_fields_within_default (w : world) (self : fetch_index)
    (document_name : string) :
  (∀ field attr,
     get_schema_fields w self document_name !! field = Some attr → field ≠ "id" →
     DEFAULT_SCHEMA w document_name !! field = Some attr)
  ∧ (∀ fields field attr,
       objects_get (objects (data self)) document_name = Some fields →
       list_truthy (include_fields fields) = true →
       DEFAULT_SCHEMA w document_name !! field = Some attr → field ≠ "id" →
       attr ∈ default [] (include_fields fields) →
       get_schema_fields w self document_name !! field = Some attr)
  ∧ (∀ fields field attr,
       objects_get (objects (data self)) document_name = Some fields →
       list_truthy (include_fields fields) = false →
       list_truthy (exclude_fields fields) = true →
       DEFAULT_SCHEMA w document_name !! field = Some attr → field ≠ "id" →
       attr ∉ default [] (exclude_fields fields) →
       get_schema_fields w self document_name !! field = Some attr)
  ∧ (objects_get (objects (data self)) document_name = None →
     get_schema_fields w self document_name = DEFAULT_SCHEMA w document_name).
Proof.
  split; [|split; [|split]].
  - intros field attr. unfold get_schema_fields.
    destruct (objects_get _ _) as [fields|]; [|done].
    destruct (fields_truthy fields); [|done].
    intros H Hne. rewrite lookup_insert_ne in H by done.
    destruct (list_truthy (include_fields fields));
      [|destruct (list_truthy (exclude_fields fields))]; try done;
      by apply map_lookup_filter_Some in H as [H _].
  - intros fields field attr Hf Hinc Hd Hne Hin. unfold get_schema_fields.
    rewrite Hf, (fields_truthy_of_include _ Hinc), Hinc.
    rewrite lookup_insert_ne by done. by apply map_lookup_filter_Some.
  - intros fields field attr Hf Hinc Hexc Hd Hne Hin. unfold get_schema_fields.
    rewrite Hf, (fields_truthy_of_exclude _ Hexc), Hinc, Hexc.
    rewrite lookup_insert_ne by done. by apply map_lookup_filter_Some.
  - intros Hf. unfold get_schema_fields. by rewrite Hf.
Qed.

(** ** What a pass leaves behind *)

Lemma indexing_flags (w : world) (self : fetch_index) (collection : string)
    (ids0 : registry) (sh : shared) :
  ∃ more, is_error_shared (indexing w self collection ids0 sh).2
          = is_error_shared sh ++ more
          ∧ (length more ≤ 1)%nat.
Proof.
  unfold indexing. destruct (indexing_loop _ _ _ _ _ _ _) as [[] s|e s]; simpl.
  - exists [is_error s]. split; [done | simpl; lia].
  - exists []. split; [by rewrite app_nil_r | simpl; lia].
Qed.

Lemma run_jobs_flags (w : world) (cfg : config) (collection : string) (ids0 : registry)
    (windows : list (timestamp * timestamp)) :
  ∀ (num : nat) (sh : shared),
  ∃ more, is_error_shared (run_jobs w cfg collection ids0 num windows sh).2
          = is_error_shared sh ++ more
          ∧ (length more ≤ length windows)%nat.
Proof.
  induction windows as [|[s e] rest IH]; intros num sh; simpl.
  - exists []. split; [by rewrite app_nil_r | simpl; lia].
  - destruct (indexing_flags w {| data := cfg; start_time := s; end_time := e |}
                collection ids0 sh) as (m1 & H1 & L1).
    destruct (indexing _ _ _ _ _) as [made sh1]. simpl in H1.
    destruct (IH (S num) sh1) as (m2 & H2 & L2).
    destruct (run_jobs _ _ _ _ _ _ _) as [events sh2]. simpl in *.
    exists (m1 ++ m2). rewrite H2, H1, <- app_assoc. split; [done|].
    rewrite length_app. lia.
Qed.

(** What a collection adds to the state of the pass, when its body returns. *)
Lemma sync_collection_state (w : world) (cfg : config) (indexing_type : string)
    (now : timestamp) (loaded : gmap string registry) (collection : string)
    (p p' : pass_state) :
  sync_collection w cfg indexing_type now loaded collection p = Some p' →
  ∃ more sto,
    p_errors_shared p' = p_errors_shared p ++ more
    ∧ (length more ≤ Z.to_nat (worker_count w cfg))%nat
    ∧ p_global_keys p' = <[collection := sto]> (p_global_keys p).
Proof.
  unfold sync_collection.
  destruct (sync_window _ _ _ _ _) as [s e].
  destruct (datetime_partitioning s e (worker_count w cfg)) as [bs|] eqn:Hbs; [|done].
  apply datetime_partitioning_length in Hbs.
  destruct (partition_windows _ 0 _) as [windows|] eqn:Hws; [|done].
  assert (length windows = Z.to_nat (worker_count w cfg)) as Hlen.
  { destruct (partition_windows_spec (datelist_of bs) (Z.to_nat (worker_count w cfg)) 0)
      as (ws & Hws' & Hl & _).
    - unfold datelist_of. rewrite length_map, Hbs. lia.
    - congruence. }
  destruct (run_jobs_flags w cfg collection
              (default empty_registry (loaded !! collection)) windows 0
              {| storage := empty_registry; is_error_shared := p_errors_shared p |})
    as (more & Hm & Hl).
  destruct (run_jobs _ _ _ _ _ _ _) as [events sh]. simpl in Hm.
  intros [= <-]. simpl. exists more, (storage sh). split; [done|]. split; [lia | done].
Qed.

Lemma sync_collections_state (w : world) (cfg : config) (indexing_type : string)
    (now : timestamp) (loaded : gmap string registry) (collections : list string) :
  ∀ p p',
    sync_collections w cfg indexing_type now loaded collections p = Some p' →
    (∃ more, p_errors_shared p' = p_errors_shared p ++ more
             ∧ (length more ≤ length collections * Z.to_nat (worker_count w cfg))%nat)
    ∧ dom (p_global_keys p') = dom (p_global_keys p) ∪ list_to_set collections.
Proof.
  induction collections as [|c rest IH]; intros p p'; simpl.
  - intros [= <-]. split; [exists []; split; [by rewrite app_nil_r | simpl; lia]|].
    simpl. by rewrite (right_id_L ∅ (∪)).
  - destruct (sync_collection w cfg indexing_type now loaded c p) as [p1|] eqn:H1; [|done].
    intros H. apply sync_collection_state in H1 as (m1 & sto & He1 & Hl1 & Hg1).
    destruct (IH p1 p' H) as [(m2 & He2 & Hl2) Hd].
    split.
    + exists (m1 ++ m2). rewrite He2, He1, <- app_assoc. split; [done|].
      rewrite length_app. lia.
    + rewrite Hd, Hg1, dom_insert_L. simpl.
      by rewrite (comm_L (∪) {[c]} (dom (p_global_keys p))), <- (assoc_L (∪)).
Qed.

(** A pass of [start] whose worker count is not zero never raises in the
    coordinator, and it records for every configured collection the current
    time and the sync mode as its checkpoint, whatever the workers reported;
    the checkpoints of collections that are not configured stay as they
    were. *)
Theorem sync_pass_sets_checkpoints (w : world) (cfg : config) (indexing_type : string)
    (now : timestamp) (st : sync_state) :
  worker_count w cfg ≠ 0 →
  ∃ st' events,
    sync_pass w cfg indexing_type now st = Some (st', events)
    ∧ (∀ c, c ∈ site_collections cfg → checkpoints st' !! c = Some (now, indexing_type))
    ∧ (∀ c, c ∉ site_collections cfg → checkpoints st' !! c = checkpoints st !! c).
Proof.
  intros HW. unfold sync_pass.
  match goal with
  | |- context [sync_collections w cfg indexing_type now ?l ?cs ?p] =>
      destruct (sync_collections_spec w cfg indexing_type now l cs HW p)
        as (p' & rest & -> & _ & _ & _ & Hin & Hout)
  end.
  eexists _, _. split; [reflexivity|]. simpl. split; [exact Hin | exact Hout].
Qed.

Lemma sync_pass_sets_checkpoints_witness :
  worker_count quiet_world (demo_config all_objects (Some 2)) ≠ 0
  ∧ ∃ st' events,
      sync_pass quiet_world (demo_config all_objects (Some 2)) "incremental" 100 fresh_state
        = Some (st', events)
      ∧ checkpoints st' !! "c1" = Some (100, "incremental").
Proof.
  assert (worker_count quiet_world (demo_config all_objects (Some 2)) ≠ 0) as HW
    by (vm_compute; discriminate).
  split; [exact HW|].
  destruct (sync_pass_sets_checkpoints quiet_world (demo_config all_objects (Some 2))
              "incremental" 100 fresh_state HW) as (st' & events & H1 & H2 & _).
  exists st', events. split; [exact H1|]. apply H2. simpl. apply list_elem_of_singleton. done.
Defined.

(** X10: the list [is_error_shared] is created once, before the loop of
    [start], and nothing clears it: after a pass it still begins with every
    flag it held before, and the pass added at most one flag per worker. *)
Theorem sync_pass_keeps_flags (w : world) (cfg : config) (indexing_type : string)
    (now : timestamp) (st st' : sync_state) (events : list sync_event) :
  sync_pass w cfg indexing_type now st = Some (st', events) →
  ∃ more,
    errors_shared st' = errors_shared st ++ more
    ∧ (length more
       ≤ length (site_collections cfg) * Z.to_nat (worker_count w cfg))%nat.
Proof.
  unfold sync_pass.
  destruct (sync_collections _ _ _ _ _ _ _) as [p'|] eqn:H; [|done].
  intros [= <- _]. simpl.
  by destruct (sync_collections_state _ _ _ _ _ _ _ _ H) as [Hm _].
Qed.

(** X11: the identifier file a pass writes holds, under [global_keys], one
    registry for each configured collection and no other, and under
    [delete_keys] the [global_keys] the pass read at its start (nothing when
    the file was missing or did not parse); so after the next pass
    [delete_keys] is what the previous pass wrote under [global_keys]. *)
Theorem sync_pass_ids_file (w : world) (cfg : config) (indexing_type : string)
    (now : timestamp) (st st' : sync_state) (events : list sync_event) :
  sync_pass w cfg indexing_type now st = Some (st', events) →
  ∃ store,
    ids_file st' = Some (Some store)
    ∧ dom (global_keys store) = list_to_set (site_collections cfg)
    ∧ delete_keys store = match ids_file st with
                          | Some (Some previous) => global_keys previous
                          | _ => ∅
                          end
    ∧ ∀ w2 cfg2 type2 now2 st2 events2,
        sync_pass w2 cfg2 type2 now2 st' = Some (st2, events2) →
        ∃ store2, ids_file st2 = Some (Some store2)
                  ∧ delete_keys store2 = global_keys store.
Proof.
  unfold sync_pass.
  destruct (sync_collections _ _ _ _ _ _ _) as [p'|] eqn:H; [|done].
  intros [= <- _]. simpl. eexists. split; [reflexivity|]. simpl.
  destruct (sync_collections_state _ _ _ _ _ _ _ _ H) as [_ Hd]. simpl in Hd.
  split; [by rewrite Hd, dom_empty_L, (left_id_L ∅ (∪))|]. split; [done|].
  intros w2 cfg2 type2 now2 st2 events2.
  destruct (sync_collections w2 _ _ _ _ _ _) as [p2|]; [|done].
  intros H2. inversion H2; subst. simpl. eauto.
Qed.

Lemma sync_pass_keeps_flags_witness :
  ∃ st' events,
    sync_pass (demo_world sink_down (Some not_found) (λ _, None))
      (demo_config all_objects (Some 2)) "incremental" 100 fresh_state = Some (st', events)
    ∧ ∃ more, errors_shared st' = errors_shared fresh_state ++ more
              ∧ (length more ≤ 1 * 2)%nat.
Proof.
  destruct (sync_pass_checkpoint (demo_world sink_down (Some not_found) (λ _, None))
              (demo_config all_objects (Some 2)) "incremental" 100 fresh_state
              ltac:(vm_compute; discriminate)) as (st' & events & H & _).
  exists st', events. split; [exact H|].
  exact (sync_pass_keeps_flags _ _ _ _ _ _ _ H).
Defined.

Lemma sync_pass_ids_file_witness :
  ∃ st' events,
    sync_pass quiet_world (demo_config all_objects (Some 2)) "incremental" 100 fresh_state
      = Some (st', events)
    ∧ ∃ store, ids_file st' = Some (Some store)
               ∧ dom (global_keys store) = {["c1"]}
               ∧ delete_keys store = ∅.
Proof.
  destruct (sync_pass_checkpoint quiet_world (demo_config all_objects (Some 2))
              "incremental" 100 fresh_state ltac:(vm_compute; discriminate))
    as (st' & events & H & _).
  exists st', events. split; [exact H|].
  destruct (sync_pass_ids_file _ _ _ _ _ _ _ H) as (store & H1 & H2 & H3 & _).
  exists store. split; [exact H1|]. split; [|exact H3].
  rewrite H2. simpl. apply (right_id_L ∅ (∪)).
Defined.

(** ** Workers whose fetches fail, and the flag they report *)

(** X12: a fetch that fails is not an error to the worker. When every query
    to the source comes back falsy, unparsable or empty, [indexing] makes no
    sink call at all, appends [False] to [is_error_shared], and merges into
    the storage only the identifiers it was handed (the copy of the previous
    cycle's registry), whatever the configured object types are. *)
Theorem indexing_with_failing_fetches (w : world) (self : fetch_index)
    (collection : string) (ids0 : registry) (sh : shared) :
  source_silent w →
  (indexing w self collection ids0 sh).1 = []
  ∧ is_error_shared (indexing w self collection ids0 sh).2 = is_error_shared sh ++ [false]
  ∧ storage (indexing w self collection ids0 sh).2 = merge_ids ids0 (storage sh).
Proof. intros H. by rewrite indexing_silent. Qed.

Lemma indexing_with_failing_fetches_witness :
  source_silent silent_world
  ∧ (indexing silent_world (demo_self all_objects) "c1" delta_one
       {| storage := empty_registry; is_error_shared := [] |}).1 = []
  ∧ storage (indexing silent_world (demo_self all_objects) "c1" delta_one
               {| storage := empty_registry; is_error_shared := [] |}).2
    = merge_ids delta_one empty_registry.
Proof.
  split; [exact source_silent_silent_world|].
  destruct (indexing_with_failing_fetches silent_world (demo_self all_objects) "c1"
              delta_one {| storage := empty_registry; is_error_shared := [] |}
              source_silent_silent_world) as (H1 & _ & H3).
  split; [exact H1 | exact H3].
Defined.

(** X13: the flag a worker appends can only be [True] when [items] is the
    last configured object type. For any other last type (in particular when
    only sites or lists are crawled) every iteration of the loop of
    [indexing] ends with [is_error] cleared, so whatever failed, the worker
    appends [False], or nothing when an exception ended it. *)
Theorem indexing_reports_false_unless_items_last (w : world) (self : fetch_index)
    (collection : string) (ids0 : registry) (sh : shared) :
  last (map fst (objects (data self))) ≠ Some ITEMS →
  is_error_shared (indexing w self collection ids0 sh).2 = is_error_shared sh ++ [false]
  ∨ is_error_shared (indexing w self collection ids0 sh).2 = is_error_shared sh.
Proof.
  intros Hlast. unfold indexing.
  destruct (indexing_loop _ _ _ _ _ _ _) as [[] s|e s] eqn:H; simpl; [left | by right].
  f_equal. f_equal. eapply (indexing_loop_flag _ _ _ _ Hlast); [|exact H]. done.
Qed.

Lemma indexing_reports_false_unless_items_last_witness :
  last (map fst (objects (data (demo_self sites_only)))) ≠ Some ITEMS
  ∧ is_error_shared
      (indexing (demo_world sink_down (Some not_found) (λ _, None)) (demo_self sites_only)
         "c1" empty_registry {| storage := empty_registry; is_error_shared := [] |}).2
    = [false].
Proof.
  assert (last (map fst (objects (data (demo_self sites_only)))) ≠ Some ITEMS) as H
    by (vm_compute; discriminate).
  split; [exact H|].
  destruct (indexing_reports_false_unless_items_last
              (demo_world sink_down (Some not_found) (λ _, None)) (demo_self sites_only)
              "c1" empty_registry {| storage := empty_registry; is_error_shared := [] |} H)
    as [H1 | H1].
  - exact H1.
  - exfalso. revert H1. vm_compute. discriminate.
Defined.

(** ** What a run never undoes *)

Lemma registry_keeps_refl (r : registry) : registry_keeps r r.
Proof. by repeat split. Qed.

Lemma registry_keeps_trans (r1 r2 r3 : registry) :
  registry_keeps r1 r2 → registry_keeps r2 r3 → registry_keeps r1 r3.
Proof.
  intros (A1 & A2 & A3) (B1 & B2 & B3).
  repeat split; etrans; eassumption.
Qed.

Lemma grows_refl (strict : bool) (s : fetch_state) : grows strict s s.
Proof. split; [done | apply registry_keeps_refl]. Qed.

Lemma grows_trans (strict : bool) (s1 s2 s3 : fetch_state) :
  grows strict s1 s2 → grows strict s2 s3 → grows strict s1 s3.
Proof.
  intros [E1 K1] [E2 K2]. split; [auto | by eapply registry_keeps_trans].
Qed.

Lemma respects_pure (strict : bool) {A} (m : M A) :
  (∀ s, state_of (m s) = s) → respects strict m.
Proof. intros H s. rewrite H. apply grows_refl. Qed.

Lemma respects_ret (strict : bool) {A} (a : A) : respects strict (ret a).
Proof. by apply respects_pure. Qed.

Lemma respects_raise (strict : bool) {A} (e : exn) : respects strict (@raise A e).
Proof. by apply respects_pure. Qed.

Lemma respects_bind (strict : bool) {A B} (m : M A) (k : A → M B) :
  respects strict m → (∀ a, respects strict (k a)) → respects strict (bind m k).
Proof.
  intros Hm Hk s. unfold bind. specialize (Hm s).
  destruct (m s) as [a s1|e s1]; simpl in *; [|done].
  eapply grows_trans; [exact Hm | apply Hk].
Qed.

Lemma respects_weaken (strict : bool) {A} (m : M A) :
  respects true m → respects strict m.
Proof. intros H s. destruct (H s) as [E K]. split; [auto | done]. Qed.

Lemma respects_call_sink (strict : bool) (c : sink_call) : respects strict (call_sink c).
Proof. intros s. split; [done | apply registry_keeps_refl]. Qed.

Lemma respects_set_true (strict : bool) : respects strict (set_is_error true).
Proof. intros s. split; [done | apply registry_keeps_refl]. Qed.

Lemma respects_set_false : respects false (set_is_error false).
Proof. intros s. split; [done | apply registry_keeps_refl]. Qed.

Lemma respects_get_is_error (strict : bool) : respects strict get_is_error.
Proof. by apply respects_pure. Qed.

Lemma respects_modify_ids (strict : bool) (f : registry → registry) :
  (∀ r, registry_keeps r (f r)) → respects strict (modify_ids f).
Proof. intros H s. split; [done | apply H]. Qed.

Lemma respects_subscript (strict : bool) (o : attrs) (k : string) :
  respects strict (subscript o k).
Proof. apply respects_pure. intros s. unfold subscript. by destruct (o !! k). Qed.

Lemma respects_need_str (strict : bool) (v : pyval) : respects strict (need_str v).
Proof. apply respects_pure. intros s. by destruct v. Qed.

Lemma respects_doc_id (strict : bool) (d : doc) : respects strict (doc_id d).
Proof. apply respects_pure. intros s. unfold doc_id. by destruct (d !! "id") as [[]|]. Qed.

Lemma respects_urljoin_host (strict : bool) (w : world) (self : fetch_index) (url : pyval) :
  respects strict (urljoin_host w self url).
Proof.
  apply respects_pure. intros s. unfold urljoin_host.
  destruct url; simpl; try done; by destruct (_ : bool).
Qed.

Lemma respects_encode_title (strict : bool) (w : world) (title : pyval) :
  respects strict (encode_title w title).
Proof. apply respects_pure. intros s. unfold encode_title. by destruct (encode w title). Qed.

Lemma foldl_insert_dom {V} (items : gmap pyval V) (lists : lists_dict) (v : V) :
  (dom items : gset pyval)
  ⊆ dom (foldl (λ acc (value : pyval * (pyval * pyval)), <[pykey value.2.1 := v]> acc)
               items lists).
Proof.
  revert items. induction lists as [|x rest IH]; intros items; simpl; [done|].
  etrans; [|apply IH]. apply dom_insert_subseteq.
Qed.

Create HintDb respects.

#[local] Hint Resolve respects_ret respects_raise respects_call_sink respects_set_true
  respects_get_is_error respects_subscript respects_need_str respects_doc_id
  respects_urljoin_host respects_encode_title : respects.

(** The steps shared by the proofs below: follow the structure of the
    computation, closing the leaves with the lemmas collected so far. *)
Ltac respects_steps :=
  repeat first
    [ solve [auto with respects]
    | apply respects_bind; [|intros]
    | apply respects_modify_ids; intros ?; unfold registry_keeps; simpl;
      repeat split; try done;
      first [ apply dom_insert_subseteq
            | by rewrite dom_alter_L
            | apply foldl_insert_dom ]
    | match goal with
      | |- respects _ (if ?b then _ else _) => destruct b
      | |- respects _ (match ?x with _ => _ end) => destruct x
      end ].

Lemma respects_workplace_add_permission (strict : bool) (w : world)
    (user_name permission : string) :
  respects strict (workplace_add_permission w user_name permission).
Proof. unfold workplace_add_permission. respects_steps. Qed.

#[local] Hint Resolve respects_workplace_add_permission : respects.

Lemma respects_add_member_users (strict : bool) (w : world) (rows : gmap string string)
    (title : string) (users : list string) :
  respects strict (add_member_users w rows title users).
Proof. induction users as [|user rest IH]; simpl; respects_steps. Qed.

#[local] Hint Resolve respects_add_member_users : respects.

Lemma respects_expand_roles (strict : bool) (w : world) (rows : gmap string string)
    (roles : list role) :
  ∀ groups, respects strict (expand_roles w rows roles groups).
Proof. induction roles as [|r rest IH]; intros groups; simpl; respects_steps. Qed.

#[local] Hint Resolve respects_expand_roles : respects.

Lemma respects_index_permissions (strict : bool) (w : world) (self : fetch_index)
    (key : string) (site list_name list_url : pyval) (itemid : option string) :
  respects strict (index_permissions w self key site list_name list_url itemid).
Proof. unfold index_permissions, get_roles. respects_steps. Qed.

#[local] Hint Resolve respects_index_permissions : respects.

Lemma respects_index_chunks (strict : bool) (w : world) (chunks : list (list doc)) :
  respects strict (index_chunks w chunks).
Proof. induction chunks as [|chunk rest IH]; simpl; respects_steps. Qed.

#[local] Hint Resolve respects_index_chunks : respects.

Lemma respects_index_document (strict : bool) (w : world) (document : list doc) :
  respects strict (index_document w document).
Proof. unfold index_document. respects_steps. Qed.

#[local] Hint Resolve respects_index_document : respects.

Lemma respects_site_document (strict : bool) (w : world) (self : fetch_index)
    (schema : gmap string string) (o : attrs) :
  respects strict (site_document w self schema o).
Proof. unfold site_document. respects_steps. Qed.

#[local] Hint Resolve respects_site_document : respects.

Lemma respects_index_sites_docs (strict : bool) (w : world) (self : fetch_index)
    (schema : gmap string string) (response_data : list attrs) :
  respects strict (index_sites_docs w self schema response_data).
Proof. induction response_data as [|o rest IH]; simpl; respects_steps. Qed.

#[local] Hint Resolve respects_index_sites_docs : respects.

Lemma respects_index_sites (strict : bool) (w : world) (self : fetch_index)
    (collection : string) (index : bool) :
  respects strict (index_sites w self collection index).
Proof. unfold index_sites. respects_steps. Qed.

#[local] Hint Resolve respects_index_sites : respects.

Lemma respects_get_site_paths (strict : bool) (w : world) (self : fetch_index)
    (collection : string) (response_data : list attrs) :
  respects strict (get_site_paths w self collection response_data).
Proof. unfold get_site_paths. respects_steps. Qed.

#[local] Hint Resolve respects_get_site_paths : respects.

Lemma respects_list_document (strict : bool) (w : world) (self : fetch_index)
    (site : pyval) (base : string) (schema_list : gmap string string) (o : attrs) :
  respects strict (list_document w self site base schema_list o).
Proof. unfold list_document. respects_steps. Qed.

#[local] Hint Resolve respects_list_document : respects.

Lemma respects_index_lists_docs (strict : bool) (w : world) (self : fetch_index)
    (site : pyval) (base : string) (schema_list : gmap string string)
    (response_data : list attrs) :
  ∀ document,
    respects strict (index_lists_docs w self site base schema_list response_data document).
Proof. induction response_data as [|o rest IH]; intros document; simpl; respects_steps. Qed.

#[local] Hint Resolve respects_index_lists_docs : respects.

Lemma respects_index_lists_loop (strict : bool) (w : world) (self : fetch_index)
    (index : bool) (sites : list pyval) :
  ∀ responses document,
    respects strict (index_lists_loop w self index sites responses document).
Proof.
  induction sites as [|site rest IH]; intros responses document; simpl; respects_steps.
Qed.

#[local] Hint Resolve respects_index_lists_loop : respects.

Lemma respects_index_lists (strict : bool) (w : world) (self : fetch_index)
    (sites : list pyval) (index : bool) :
  respects strict (index_lists w self sites index).
Proof. unfold index_lists. respects_steps. Qed.

#[local] Hint Resolve respects_index_lists : respects.

Lemma respects_get_lists_paths (strict : bool) (w : world) (self : fetch_index)
    (collection : string) (sites : list pyval) (response_data : list (list attrs)) :
  respects strict (get_lists_paths w self collection sites response_data).
Proof. unfold get_lists_paths. respects_steps. Qed.

#[local] Hint Resolve respects_get_lists_paths : respects.

Lemma respects_item_document (strict : bool) (w : world) (self : fetch_index)
    (value0 value1 : pyval) (base_item_url : string) (schema_item : gmap string string)
    (file_response_data : option (list attachment_entry)) (num : nat) (o : attrs) :
  respects strict (item_document w self value0 value1 base_item_url schema_item
                     file_response_data num o).
Proof. unfold item_document, item_body, item_finish. respects_steps. Qed.

#[local] Hint Resolve respects_item_document : respects.

Lemma respects_index_items_docs (strict : bool) (w : world) (self : fetch_index)
    (value0 value1 : pyval) (base_item_url : string) (schema_item : gmap string string)
    (file_response_data : option (list attachment_entry)) (response_data : list attrs) :
  ∀ num document,
    respects strict (index_items_docs w self value0 value1 base_item_url schema_item
                       file_response_data response_data num document).
Proof.
  induction response_data as [|o rest IH]; intros num document; simpl; respects_steps.
Qed.

#[local] Hint Resolve respects_index_items_docs : respects.

Lemma respects_index_items_list (strict : bool) (w : world) (self : fetch_index)
    (index : bool) (value0 value1 : pyval) :
  respects strict (index_items_list w self index value0 value1).
Proof. unfold index_items_list. respects_steps. Qed.

#[local] Hint Resolve respects_index_items_list : respects.

Lemma respects_index_items_loop (strict : bool) (w : world) (self : fetch_index)
    (index : bool) (lists : lists_dict) :
  ∀ responses, respects strict (index_items_loop w self index lists responses).
Proof.
  induction lists as [|[k [value0 value1]] rest IH]; intros responses; simpl;
    respects_steps.
Qed.

#[local] Hint Resolve respects_index_items_loop : respects.

Lemma respects_index_items (strict : bool) (w : world) (self : fetch_index)
    (lists : lists_dict) (index : bool) :
  respects strict (index_items w self lists index).
Proof.
  unfold index_items. destruct lists as [|x rest]; [respects_steps|].
  apply respects_bind; [|intros; respects_steps].
  apply respects_modify_ids. intros r. unfold registry_keeps. simpl.
  repeat split; try done.
  apply (foldl_insert_dom (reg_list_items r) (x :: rest) ∅).
Qed.

#[local] Hint Resolve respects_index_items : respects.

Lemma respects_indexing_key (w : world) (self : fetch_index) (collection key : string)
    (sites : list pyval) (lists : lists_dict) :
  respects false (indexing_key w self collection key sites lists).
Proof.
  pose proof respects_set_false.
  unfold indexing_key, indexing_items. respects_steps.
Qed.

Lemma respects_indexing_loop (w : world) (self : fetch_index) (collection : string)
    (keys : list string) :
  ∀ sites lists, respects false (indexing_loop w self collection keys sites lists).
Proof.
  pose proof respects_indexing_key.
  induction keys as [|key rest IH]; intros sites lists; simpl; respects_steps.
Qed.

(** X14: inside a stage [is_error] is only ever set. Once it is [True],
    neither [index_sites], [index_lists], [index_items] nor
    [index_permissions] clears it, however they end; only the loop of
    [indexing] does. *)
Theorem stages_keep_is_error (w : world) (self : fetch_index) (collection : string)
    (sites : list pyval) (lists : lists_dict) (index : bool) (key : string)
    (site list_name list_url : pyval) (itemid : option string) (s : fetch_state) :
  is_error s = true →
  is_error (state_of (index_sites w self collection index s)) = true
  ∧ is_error (state_of (index_lists w self sites index s)) = true
  ∧ is_error (state_of (index_items w self lists index s)) = true
  ∧ is_error (state_of (index_permissions w self key site list_name list_url itemid s))
    = true.
Proof.
  intros Hs. repeat split.
  - by apply (respects_index_sites true w self collection index s).
  - by apply (respects_index_lists true w self sites index s).
  - by apply (respects_index_items true w self lists index s).
  - by apply (respects_index_permissions true w self key site list_name list_url itemid s).
Qed.

Lemma stages_keep_is_error_witness :
  is_error failed_state = true
  ∧ is_error (state_of (index_sites quiet_world (demo_self all_objects) "c1" true
                          failed_state)) = true.
Proof.
  split; [reflexivity|].
  destruct (stages_keep_is_error quiet_world (demo_self all_objects) "c1" [] [] true
              SITES PNone PNone PNone None failed_state eq_refl) as [H _].
  exact H.
Defined.

Lemma merge_ids_keeps (delta st : registry) :
  registry_keeps delta (merge_ids delta st) ∧ registry_keeps st (merge_ids delta st).
Proof.
  unfold registry_keeps, merge_ids. simpl. rewrite !merge_level_union, !dom_union_L.
  split; repeat split; first [apply union_subseteq_l | apply union_subseteq_r].
Qed.


(** ** The sites stage *)

Lemma no_batch_site_document (w : world) (self : fetch_index)
    (schema : gmap string string) (o : attrs) :
  no_batch (site_document w self schema o).
Proof.
  unfold site_document.
  apply no_batch_bind; [apply no_batch_subscript|]. intros created.
  apply no_batch_bind; [apply no_batch_need_str|]. intros c.
  apply no_batch_bind.
  { destruct (enable_document_permission (data self)); [|done].
    apply no_batch_bind; [apply no_batch_subscript|]. intros site.
    apply no_batch_bind; [apply no_batch_index_permissions | done]. }
  intros d.
  apply no_batch_bind; [apply no_batch_doc_id|]. intros id.
  apply no_batch_bind; [apply no_batch_subscript|]. intros url.
  apply no_batch_bind; [apply no_batch_modify_ids | done].
Qed.

Lemma site_document_Returned (w : world) (self : fetch_index)
    (schema : gmap string string) (o o' : attrs) (d : doc) (s s' : fetch_state) :
  site_document w self schema o s = Returned (o', d) s' → created_suffixed o o'.
Proof.
  unfold site_document. intros H.
  apply bind_Returned in H as (created & s1 & Hc & H).
  apply bind_Returned in H as (c & s2 & Hs & H).
  apply bind_Returned in H as (d0 & s3 & _ & H).
  apply bind_Returned in H as (id & s4 & _ & H).
  apply bind_Returned in H as (url & s5 & _ & H).
  apply bind_Returned in H as (? & s6 & _ & H).
  injection H as <- _ _.
  unfold subscript in Hc. destruct (o !! "Created") as [v|] eqn:E; [|done].
  injection Hc as -> _. destruct created; try done. injection Hs as -> _.
  by exists c.
Qed.

Lemma index_sites_docs_cons (w : world) (self : fetch_index)
    (schema : gmap string string) (o : attrs) (rest : list attrs) (s : fetch_state) :
  index_sites_docs w self schema (o :: rest) s
  = match site_document w self schema o s with
    | Returned (o', d) s1 =>
        match index_sites_docs w self schema rest s1 with
        | Returned (os, ds) s2 => Returned (o' :: os, d :: ds) s2
        | Raised e s2 => Raised e s2
        end
    | Raised e s1 => Raised e s1
    end.
Proof.
  simpl. unfold bind.
  destruct (site_document w self schema o s) as [[o' d] s1|e s1]; [|done].
  by destruct (index_sites_docs w self schema rest s1) as [[os ds] s2|e s2].
Qed.

Lemma index_sites_docs_spec (w : world) (self : fetch_index)
    (schema : gmap string string) (response_data : list attrs) :
  ∀ s,
    submitted (calls (state_of (index_sites_docs w self schema response_data s)))
    = submitted (calls s)
    ∧ ∀ os ds s', index_sites_docs w self schema response_data s = Returned (os, ds) s' →
        Forall2 created_suffixed response_data os ∧ length ds = length response_data.
Proof.
  induction response_data as [|o rest IH]; intros s.
  - simpl. split; [done|]. intros os ds s' [= <- <- <-]. by split.
  - rewrite index_sites_docs_cons.
    pose proof (no_batch_site_document w self schema o s) as Hnb.
    destruct (site_document w self schema o s) as [[o' d] s1|e s1] eqn:Hd; simpl in Hnb;
      [|by split].
    destruct (IH s1) as [Hsub Hret].
    destruct (index_sites_docs w self schema rest s1) as [[os ds] s2|e s2] eqn:Hrest;
      simpl in *.
    + split; [by rewrite Hsub|]. intros os' ds' s' [= <- <- <-].
      destruct (Hret os ds s2 eq_refl) as [H1 H2]. split; [|simpl; by rewrite H2].
      constructor; [|done]. by eapply site_document_Returned.
    + split; [by rewrite Hsub | done].
Qed.

(** X16: [index_sites] with [index=True] sends the site documents in one
    call of [index_document], after all of them were built: when it raises
    (a site without [Created], a failing permission lookup, ...) not a single
    batch was sent; when it returns, the objects it hands back are the
    fetched ones with ["Z"] appended to their [Created], and the batches sent
    are those of a document list with one document per site. *)
Theorem index_sites_all_or_nothing (w : world) (self : fetch_index) (collection : string)
    (s : fetch_state) :
  (∀ e s', index_sites w self collection true s = Raised e s' →
     submitted (calls s') = submitted (calls s))
  ∧ (∀ o os r s',
       sites_of_collection w self collection = Some (o :: os) →
       index_sites w self collection true s = Returned r s' →
       Forall2 created_suffixed (o :: os) r
       ∧ ∃ document,
           length document = length (o :: os)
           ∧ submitted (calls s')
             = submitted (calls s) ++ attempted w (document_list document)).
Proof.
  assert (index_sites w self collection true s
          = match sites_of_collection w self collection with
            | Some (o :: os) =>
                match index_sites_docs w self (get_schema_fields w self SITES) (o :: os) s with
                | Returned (r, document) s1 =>
                    match index_document w document s1 with
                    | Returned _ s2 => Returned r s2
                    | Raised e s2 => Raised e s2
                    end
                | Raised e s1 => Raised e s1
                end
            | _ => Returned [] s
            end) as ->.
  { unfold index_sites. fold (sites_of_collection w self collection).
    destruct (sites_of_collection w self collection) as [[|o os]|]; try done.
    unfold bind.
    destruct (index_sites_docs _ _ _ _ _) as [[r document] s1|e s1]; [|done].
    by destruct (index_document w document s1). }
  destruct (sites_of_collection w self collection) as [[|o os]|]; try (by split).
  destruct (index_sites_docs_spec w self (get_schema_fields w self SITES) (o :: os) s)
    as [Hsub Hret].
  destruct (index_sites_docs w self (get_schema_fields w self SITES) (o :: os) s)
    as [[r docs] s1|e s1] eqn:Hdocs; simpl in Hsub.
  - destruct (Hret r docs s1 eq_refl) as [Hr Hl].
    destruct (index_document_spec w docs s1) as (s2 & -> & Hs2). split; [done|].
    intros o' os' r' s' [= <- <-] [= <- <-]. split; [done|].
    exists docs. split; [done|]. by rewrite Hs2, Hsub.
  - split; [|done]. by intros e' s' [= <- <-].
Qed.

(** ** The requests of [Permissions] *)

Lemma ends_with_slash_app (s : string) : ends_with_slash (s +:+ "/") = true.
Proof.
  induction s as [|c rest IH]; [done|].
  simpl. destruct rest as [|c' rest']; [done|]. exact IH.
Qed.

(** X17: [Permissions.fetch_users] asks the client for a url that ends in a
    slash: the url it was given, with a slash appended only when it had
    none, so asking again with the url of the request changes nothing. It
    knows the four keys [sites], [lists], [list_items] and [drive_items] and
    raises a [KeyError] for any other (the [items] of [fetch_index.py] among
    them); list items and drive items get the same query, and the query for
    sites does not depend on the list or item. [fetch_groups] passes its url
    on as it is. *)
Theorem permissions_fetch_users_request (key rel_url : string) (list_id item_id : pyval) :
  (∀ c, permissions_fetch_users key rel_url list_id item_id = Some c →
     ends_with_slash (get_url c) = true
     ∧ (get_url c = rel_url ∨ get_url c = rel_url +:+ "/")
     ∧ (ends_with_slash rel_url = true → get_url c = rel_url)
     ∧ get_param c = "permission_users"
     ∧ permissions_fetch_users key (get_url c) list_id item_id = Some c)
  ∧ (is_Some (permissions_fetch_users key rel_url list_id item_id)
     ↔ key ∈ [SITES; LISTS; LIST_ITEMS; DRIVE_ITEMS])
  ∧ permissions_fetch_users ITEMS rel_url list_id item_id = None
  ∧ permissions_fetch_users LIST_ITEMS rel_url list_id item_id
    = permissions_fetch_users DRIVE_ITEMS rel_url list_id item_id
  ∧ (∀ list_id' item_id',
       permissions_fetch_users SITES rel_url list_id' item_id'
       = permissions_fetch_users SITES rel_url list_id item_id)
  ∧ (∀ userid, get_url (permissions_fetch_groups rel_url userid) = rel_url).
Proof.
  split; [|split; [|split; [|split; [|split]]]]; try done.
  - intros c. unfold permissions_fetch_users.
    destruct (permission_maps list_id item_id key) as [query|]; [|done].
    intros [= <-]. simpl.
    destruct (ends_with_slash rel_url) eqn:E.
    + rewrite E. repeat split; try done. by left.
    + rewrite ends_with_slash_app. repeat split; try done. by right.
  - unfold permissions_fetch_users, permission_maps. split.
    + repeat case_bool_decide; subst; intros [c Hc]; try done;
        repeat (first [apply list_elem_of_here | apply list_elem_of_further]).
    + intros H. repeat (apply elem_of_cons in H as [->|H]); try (by eexists).
      by apply elem_of_nil in H.
Qed.

(** ** The user mapping sheet *)

Lemma rows_of_snoc (sheet : list (string * string)) (row : string * string) :
  rows_of (sheet ++ [row]) = <[row.1 := row.2]> (rows_of sheet).
Proof. unfold rows_of. by rewrite foldl_app. Qed.

Lemma rows_of_lookup (sheet : list (string * string)) (name : string) :
  rows_of sheet !! name = snd <$> last (filter (λ row, row.1 = name) sheet).
Proof.
  induction sheet as [|row sheet IH] using rev_ind; [done|].
  rewrite rows_of_snoc, filter_app.
  destruct (decide (row.1 = name)) as [Heq|Hne].
  - rewrite filter_cons_True, filter_nil by done.
    rewrite last_snoc. simpl. rewrite <- Heq. apply lookup_insert_eq.
  - rewrite filter_cons_False, filter_nil, app_nil_r by done.
    by rewrite lookup_insert_ne.
Qed.

(** X18: the substitution table is read row by row and a later row replaces
    an earlier one with the same first column: a name is pushed as the second
    column of the last row of the sheet whose first column is that name, and
    as it is when no row has it. *)
Theorem rows_last_row_wins (sheet : list (string * string)) (name : string) :
  rows_get (rows_of sheet) name
  = match last (filter (λ row, row.1 = name) sheet) with
    | Some row => row.2
    | None => name
    end.
Proof.
  unfold rows_get. rewrite rows_of_lookup.
  by destruct (last (filter (λ row, row.1 = name) sheet)).
Qed.

(** ** The dictionary of lists *)

Lemma py_eq_pykey (a b : pyval) : py_eq a b = true ↔ pykey a = pykey b.
Proof.
  destruct a as [|[]|x|x], b as [|[]|y|y]; cbn [py_eq py_num pykey];
    rewrite ?Z.eqb_eq, ?bool_decide_eq_true; split; intros H; by simplify_eq.
Qed.

Lemma dict_set_keys (k : pyval) (v : pyval * pyval) (d : lists_dict) :
  map fst (dict_set k v d)
  = if existsb (λ k', py_eq k' k) (map fst d) then map fst d else map fst d ++ [k].
Proof.
  induction d as [|[k' v'] rest IH]; simpl; [done|].
  destruct (py_eq k' k); simpl; [done|]. rewrite IH.
  by destruct (existsb _ _).
Qed.

Lemma dict_set_distinct (k : pyval) (v : pyval * pyval) (d : lists_dict) :
  NoDup (map pykey (map fst d)) → NoDup (map pykey (map fst (dict_set k v d))).
Proof.
  intros Hd. rewrite dict_set_keys.
  destruct (existsb _ _) eqn:E; [done|].
  rewrite map_app. simpl. apply NoDup_app. split; [done|]. split; [|apply NoDup_singleton].
  intros x Hx Hk. apply list_elem_of_singleton in Hk as ->.
  apply list_elem_of_fmap in Hx as (k' & Hk' & Hin).
  assert (existsb (λ k'0, py_eq k'0 k) (map fst d) = true); [|congruence].
  apply existsb_exists. exists k'. split; [by apply list_elem_of_In|].
  by apply py_eq_pykey.
Qed.

Lemma dict_set_has (k : pyval) (v : pyval * pyval) (d : lists_dict) :
  ∃ k', (k', v) ∈ dict_set k v d ∧ py_eq k' k = true.
Proof.
  induction d as [|[k0 v0] rest (k' & Hin & Heq)]; simpl.
  - exists k. split; [constructor|]. by apply py_eq_pykey.
  - destruct (py_eq k0 k) eqn:E.
    + exists k0. split; [constructor | done].
    + exists k'. split; [by constructor | done].
Qed.

Lemma dict_set_keeps_keys (k : pyval) (v : pyval * pyval) (d : lists_dict) (k0 : pyval) :
  k0 ∈ map fst d → k0 ∈ map fst (dict_set k v d).
Proof.
  rewrite dict_set_keys. destruct (existsb _ _); [done|].
  intros H. apply elem_of_app. by left.
Qed.

Lemma dict_set_length (k : pyval) (v : pyval * pyval) (d : lists_dict) :
  (length (dict_set k v d) ≤ S (length d))%nat.
Proof.
  induction d as [|[k' v'] rest IH]; simpl; [done|].
  destruct (py_eq k' k); simpl; lia.
Qed.

Lemma lists_from_snoc (objs : list attrs) (o : attrs) :
  lists_from (objs ++ [o])
  = dict_set (attr_get o "Id") (attr_get o "ParentWebUrl", attr_get o "Title")
             (lists_from objs).
Proof. unfold lists_from. by rewrite foldl_app. Qed.

(** X19: the [lists] dictionary [get_lists_paths] builds holds each list id
    once: its keys are pairwise different (as dictionary keys), every list
    object of the responses has its [Id] among them, there are at most as
    many entries as objects, and the entry of the last object is that
    object's [ParentWebUrl] and [Title], so a later object with the same
    [Id] replaces an earlier one. *)
Theorem lists_from_keys (objs : list attrs) :
  NoDup (map pykey (map fst (lists_from objs)))
  ∧ (∀ o, o ∈ objs →
       ∃ k, k ∈ map fst (lists_from objs) ∧ py_eq k (attr_get o "Id") = true)
  ∧ (length (lists_from objs) ≤ length objs)%nat
  ∧ (∀ o, last objs = Some o →
       ∃ k, (k, (attr_get o "ParentWebUrl", attr_get o "Title")) ∈ lists_from objs
            ∧ py_eq k (attr_get o "Id") = true).
Proof.
  induction objs as [|o objs (IH1 & IH2 & IH3 & _)] using rev_ind.
  - repeat split; try constructor; try done. intros o Ho. by apply elem_of_nil in Ho.
  - rewrite lists_from_snoc. split; [by apply dict_set_distinct|]. split; [|split].
    + intros o' Ho'. apply elem_of_app in Ho' as [Ho'|Ho'].
      * destruct (IH2 o' Ho') as (k & Hk & Heq). exists k.
        split; [by apply dict_set_keeps_keys | done].
      * apply list_elem_of_singleton in Ho' as ->.
        destruct (dict_set_has (attr_get o "Id")
                    (attr_get o "ParentWebUrl", attr_get o "Title") (lists_from objs))
          as (k & Hin & Heq).
        exists k. split; [|done].
        apply list_elem_of_fmap. by exists (k, (attr_get o "ParentWebUrl", attr_get o "Title")).
    + rewrite length_app. simpl.
      pose proof (dict_set_length (attr_get o "Id")
                    (attr_get o "ParentWebUrl", attr_get o "Title") (lists_from objs)).
      lia.
    + intros o'. rewrite last_snoc. intros [= <-]. apply dict_set_has.
Qed.

(** ** The items stage, list by list *)

Lemma no_batch_item_document (w : world) (self : fetch_index) (value0 value1 : pyval)
    (base_item_url : string) (schema_item : gmap string string)
    (file_response_data : option (list attachment_entry)) (num : nat) (o : attrs) :
  no_batch (item_document w self value0 value1 base_item_url schema_item
              file_response_data num o).
Proof.
  unfold item_document. apply no_batch_bind.
  - unfold item_body. destruct (truthy _); [|done].
    destruct file_response_data as [entries|]; [|done].
    destruct (entries !! num) as [entry|]; [|done].
    destruct (attachment_files entry); [done|].
    destruct (sp_get_file _ _ _) as [resp|]; [|done].
    destruct (_ =? _); [|done]. by destruct (tika_extract _ _).
  - intros d. unfold item_finish. apply no_batch_bind.
    { destruct (enable_document_permission (data self)); [|done].
      apply no_batch_bind; [apply no_batch_subscript|]. intros id.
      apply no_batch_bind; [apply no_batch_index_permissions | done]. }
    intros d'. apply no_batch_bind; [apply no_batch_subscript|]. intros id.
    apply no_batch_bind; [apply no_batch_modify_ids | done].
Qed.

Lemma index_items_docs_spec (w : world) (self : fetch_index) (value0 value1 : pyval)
    (base_item_url : string) (schema_item : gmap string string)
    (file_response_data : option (list attachment_entry)) (response_data : list attrs) :
  ∀ (num : nat) (document : list doc) (s : fetch_state),
    submitted (calls (state_of
      (index_items_docs w self value0 value1 base_item_url schema_item file_response_data
         response_data num document s))) = submitted (calls s)
    ∧ ∀ docs s',
        index_items_docs w self value0 value1 base_item_url schema_item file_response_data
          response_data num document s = Returned docs s' →
        length docs = (length document + length response_data)%nat.
Proof.
  induction response_data as [|o rest IH]; intros num document s; simpl.
  - split; [done|]. intros docs s' [= <- <-]. lia.
  - unfold bind.
    pose proof (no_batch_item_document w self value0 value1 base_item_url schema_item
                  file_response_data num o s) as Hnb.
    destruct (item_document _ _ _ _ _ _ _ _ _ _) as [d s1|e s1]; simpl in Hnb; [|by split].
    destruct (IH (S num) (document ++ [d]) s1) as [Hsub Hret].
    split; [by rewrite Hsub|].
    intros docs s' Hrun. rewrite (Hret docs s' Hrun), length_app. simpl. lia.
Qed.

Lemma index_items_list_unfold (w : world) (self : fetch_index) (value0 value1 : pyval)
    (s : fetch_state) :
  index_items_list w self true value0 value1 s
  = match encode w value1 with
    | None => Raised TypeError s
    | Some encoded =>
        match items_of_list w self value0 encoded with
        | Some (o :: os) =>
            match value1 with
            | PStr title =>
                match index_items_docs w self value0 value1
                        (item_base_url w self value0 title) (get_schema_fields w self ITEMS)
                        (attachments_of_list w self value0 encoded) (o :: os) 0 []
                        (reset_guids value0 value1 s) with
                | Returned document s1 =>
                    match index_document w document s1 with
                    | Returned _ s2 => Returned (Some document) s2
                    | Raised e s2 => Raised e s2
                    end
                | Raised e s1 => Raised e s1
                end
            | _ => Raised TypeError s
            end
        | _ => Returned None s
        end
    end.
Proof.
  unfold index_items_list, encode_title, bind.
  destruct (encode w value1) as [encoded|]; [|done].
  unfold ret at 1. fold (items_of_list w self value0 encoded).
  destruct (items_of_list w self value0 encoded) as [[|o os]|]; try done.
  by destruct value1 as [| | |title].
Qed.

(** X20: unlike [index_lists], [index_items] starts a new [document] list
    for every list. For one list, when the call returns with documents, the
    list answered items, there is one document per item, and the batches sent
    are those of these documents alone; when the list answers no item,
    nothing at all changes; and when the call raises, no batch of this list's
    documents was sent. *)
Theorem index_items_list_batches (w : world) (self : fetch_index) (value0 value1 : pyval)
    (s : fetch_state) :
  (∀ e s', index_items_list w self true value0 value1 s = Raised e s' →
     submitted (calls s') = submitted (calls s))
  ∧ (∀ s', index_items_list w self true value0 value1 s = Returned None s' → s' = s)
  ∧ (∀ document s',
       index_items_list w self true value0 value1 s = Returned (Some document) s' →
       ∃ encoded items,
         encode w value1 = Some encoded
         ∧ items_of_list w self value0 encoded = Some items
         ∧ items ≠ []
         ∧ length document = length items
         ∧ submitted (calls s')
           = submitted (calls s) ++ attempted w (document_list document)).
Proof.
  rewrite index_items_list_unfold.
  destruct (encode w value1) as [encoded|] eqn:Henc;
    [|repeat split; intros; simplify_eq; done].
  destruct (items_of_list w self value0 encoded) as [[|o os]|] eqn:Hitems;
    try (repeat split; intros; simplify_eq; done).
  destruct value1 as [| | |title]; try (repeat split; intros; simplify_eq; done).
  destruct (index_items_docs_spec w self value0 (PStr title)
              (item_base_url w self value0 title) (get_schema_fields w self ITEMS)
              (attachments_of_list w self value0 encoded) (o :: os) 0%nat []
              (reset_guids value0 (PStr title) s)) as [Hsub Hret].
  destruct (index_items_docs _ _ _ _ _ _ _ _ _ _ _) as [docs s1|e s1] eqn:Hdocs;
    simpl in Hsub.
  - destruct (index_document_spec w docs s1) as (s2 & -> & Hs2).
    repeat split; intros; simplify_eq.
    exists encoded, (o :: os). repeat split; try done.
    + by rewrite (Hret _ _ eq_refl).
    + by rewrite Hs2, Hsub.
  - repeat split; intros; simplify_eq. done.
Qed.


(** ** The checkpoint call of a collection *)

Lemma run_jobs_worker_calls (w : world) (cfg : config) (collection : string)
    (ids0 : registry) (windows : list (timestamp * timestamp)) :
  ∀ (num : nat) (sh : shared),
    Forall (λ e, is_set_checkpoint e = false)
           (run_jobs w cfg collection ids0 num windows sh).1.
Proof.
  induction windows as [|[s e] rest IH]; intros num sh; simpl; [constructor|].
  destruct (indexing _ _ _ _ _) as [made sh1].
  specialize (IH (S num) sh1).
  destruct (run_jobs _ _ _ _ _ _ _) as [events sh2]. simpl in *.
  apply Forall_app. split; [|done].
  apply Forall_fmap, Forall_true. by intros c.
Qed.

Lemma started_not_checkpoint (collection : string)
    (windows : list (timestamp * timestamp)) :
  ∀ f : nat → nat,
    Forall (λ e, is_set_checkpoint e = false)
           (imap (λ num window, StartProcess collection (f num) window) windows).
Proof.
  induction windows as [|win ws IH]; intros f; simpl; [constructor|].
  constructor; [done | apply (IH (f ∘ S))].
Qed.

(** X9: for every collection [start] calls [set_checkpoint] exactly once,
    after all its workers were started and joined, and the time it passes is
    the end of the collection's window whatever flags the workers appended
    (the test for the string ["True"] never finds one of their booleans): the
    events the collection adds end with that call and hold no other. *)
Theorem set_checkpoint_gets_window_end (w : world) (cfg : config)
    (indexing_type : string) (now : timestamp) (loaded : gmap string registry)
    (collection : string) (p : pass_state) :
  worker_count w cfg ≠ 0 →
  ∃ p' before,
    sync_collection w cfg indexing_type now loaded collection p = Some p'
    ∧ p_events p'
      = p_events p ++ before
        ++ [SetCheckpoint collection
              (sync_window cfg indexing_type (p_checkpoints p) collection now).2
              indexing_type]
    ∧ Forall (λ e, is_set_checkpoint e = false) before.
Proof.
  intros HW. unfold sync_collection.
  destruct (sync_window _ _ _ _ _) as [s e]. simpl.
  destruct (datetime_partitioning s e (worker_count w cfg)) as [bs|] eqn:Hbs;
    [| unfold datetime_partitioning in Hbs;
       destruct (worker_count w cfg =? 0) eqn:E; [lia | done]].
  apply datetime_partitioning_length in Hbs.
  destruct (partition_windows_spec (datelist_of bs) (Z.to_nat (worker_count w cfg)) 0)
    as (windows & -> & Hlen & _).
  { unfold datelist_of. rewrite length_map, Hbs. lia. }
  pose proof (run_jobs_worker_calls w cfg collection
                (default empty_registry (loaded !! collection)) windows 0
                {| storage := empty_registry; is_error_shared := p_errors_shared p |}) as Hev.
  destruct (run_jobs _ _ _ _ _ _ _) as [made sh]. simpl in Hev.
  rewrite checkpoint_time_is_end.
  eexists _, (imap (λ num window, StartProcess collection num window) windows ++ made).
  split; [reflexivity|]. simpl. split; [by rewrite <- !app_assoc|].
  apply Forall_app. split; [apply (started_not_checkpoint collection windows id) | done].
Qed.

Lemma set_checkpoint_gets_window_end_witness :
  worker_count (demo_world sink_down (Some not_found) (λ _, None))
    (demo_config all_objects (Some 2)) ≠ 0
  ∧ ∃ p' before,
      sync_collection (demo_world sink_down (Some not_found) (λ _, None))
        (demo_config all_objects (Some 2)) "full_sync" 100 ∅ "c1" caught_up = Some p'
      ∧ p_events p' = p_events caught_up ++ before ++ [SetCheckpoint "c1" 100 "full_sync"].
Proof.
  assert (worker_count (demo_world sink_down (Some not_found) (λ _, None))
            (demo_config all_objects (Some 2)) ≠ 0) as HW by (vm_compute; discriminate).
  split; [exact HW|].
  destruct (set_checkpoint_gets_window_end
              (demo_world sink_down (Some not_found) (λ _, None))
              (demo_config all_objects (Some 2)) "full_sync" 100 ∅ "c1" caught_up HW)
    as (p' & before & H1 & H2 & _).
  exists p', before. split; [exact H1 | exact H2].
Defined.
